(** * range_repair.py: ring topology, range partitioning and the repair driver

    A shallow embedding of [range_repair.py] (Python 2).  Tokens are Python
    [long]s, modelled as [Z]; [/] on them is floor division, modelled by
    [Z.div] with the division by zero written out.  Generators are modelled
    by their resumption function ([next]); the external processes by an
    oracle consulted when a process is waited for, with every spawn, wait
    and log call recorded in an event log. *)

From Stdlib Require Import ZArith List Bool Lia String Ascii DecimalString DecimalN.
From Stdlib Require Import Sorting.Sorted Sorting.Permutation Sorting.Mergesort Orders.
Import ListNotations.
Open Scope Z_scope.

(** ** Exceptions and generators *)

(** The Python exceptions the modelled code can raise. *)
Inductive exn : Type :=
| ZeroDivisionError
| IndexError
| ValueError.

(** One call of a generator's [next()]: a value and the suspended state, the
    end of the iteration, or an exception. *)
Inductive pull (A S : Type) : Type :=
| Yield (a : A) (s : S)
| StopIteration
| Raise (e : exn).
Arguments Yield {A S} a s.
Arguments StopIteration {A S}.
Arguments Raise {A S} e.

(** How the consumption of a generator ended. *)
Inductive ending : Type :=
| Exhausted
| Raised (e : exn)
| Unfinished.

(** [drain next fuel s]: the values yielded by at most [fuel] calls that
    yield, and how the iteration ended ([list(gen)] when [Exhausted]). *)
Fixpoint drain {A S : Type} (next : S -> pull A S) (fuel : nat) (s : S)
  : list A * ending :=
  match next s with
  | StopIteration => ([], Exhausted)
  | Raise e => ([], Raised e)
  | Yield a s' =>
      match fuel with
      | O => ([], Unfinished)
      | S fuel' => let (l, e) := drain next fuel' s' in (a :: l, e)
      end
  end.

(** ** lrange *)

Module Lrange.

(** The comparison held in the local [op]. *)
Inductive cmp : Type := Le | Gt.

Definition apply_op (op : cmp) (a b : Z) : bool :=
  match op with
  | Le => a <=? b
  | Gt => a >? b
  end.

(** The locals of a suspended [lrange]. *)
Record state : Type := mk { num1 : Z; num2 : Z; step : Z; op : cmp }.

(** The code before the [while] of [lrange(num1, num2, step)], [num2] given. *)
Definition init (n1 n2 st : Z) : state :=
  if n2 <? n1 then
    mk (if st >? 0 then n2 else n1) n2 st Gt
  else if st <? 0 then
    mk n2 n2 st Le
  else
    mk n1 n2 st Le.

(** One turn of the [while]. *)
Definition next (s : state) : pull Z state :=
  if apply_op (op s) (num1 s) (num2 s) then
    Yield (num1 s) (mk (num1 s + step s) (num2 s) (step s) (op s))
  else StopIteration.

End Lrange.

(** ** get_sub_range_generator *)

Module SubRange.

(** Where a [get_sub_range_generator] generator is suspended. *)
Inductive state : Type :=
| Entry (start stop steps : Z)
| Walking (start stop : Z) (it : Lrange.state)
| Finished.

(** The [for] over [lrange] and the tail [if start < stop]. *)
Definition walk (start stop : Z) (it : Lrange.state) : pull (Z * Z) state :=
  match Lrange.next it with
  | Yield i it' => Yield (start, i) (Walking i stop it')
  | StopIteration =>
      if start <? stop then Yield (start, stop) Finished else StopIteration
  | Raise e => Raise e
  end.

Definition next (s : state) : pull (Z * Z) state :=
  match s with
  | Entry start stop steps =>
      if start + steps + 1 <? stop then
        if steps =? 0 then Raise ZeroDivisionError
        else
          let step_increment := Z.abs (stop - start) / steps in
          walk start stop
               (Lrange.init (start + step_increment) (stop + 1) step_increment)
      else Yield (start, stop) Finished
  | Walking start stop it => walk start stop it
  | Finished => StopIteration
  end.

End SubRange.

(** [get_sub_range_generator(start, stop, steps)] consumed with [fuel]. *)
Definition get_sub_range_generator (fuel : nat) (start stop steps : Z)
  : list (Z * Z) * ending :=
  drain SubRange.next fuel (SubRange.Entry start stop steps).

(** The pairs follow one another: each pair's end is the next one's start. *)
Fixpoint contiguous (l : list (Z * Z)) : Prop :=
  match l with
  | [] => True
  | p :: l' =>
      match l' with
      | [] => True
      | q :: _ => snd p = fst q
      end /\ contiguous l'
  end.

(** The pairs reconstruct [[start, stop]]: begin at [start], are contiguous
    and end at [stop]. *)
Definition reconstructs (start stop : Z) (l : list (Z * Z)) : Prop :=
  (exists p, hd_error l = Some p /\ fst p = start) /\
  contiguous l /\
  (exists q, hd_error (rev l) = Some q /\ snd q = stop).

(** ** Strings as the script uses them *)

Module Str.
Open Scope string_scope.

Definition newline : ascii := ascii_of_nat 10.

(** The characters [str.split()] treats as white space. *)
Definition is_space (c : ascii) : bool :=
  let n := nat_of_ascii c in
  (Nat.eqb n 32 || (Nat.leb 9 n && Nat.leb n 13))%bool.

(** [s.split(sep)] for a one-character separator: empty fields are kept. *)
Fixpoint split_on (sep : ascii) (s : string) : list string :=
  match s with
  | EmptyString => [EmptyString]
  | String c s' =>
      if Ascii.eqb c sep then EmptyString :: split_on sep s'
      else
        match split_on sep s' with
        | x :: r => String c x :: r
        | [] => [String c EmptyString]
        end
  end.

Definition push_word (w : string) (ws : list string) : list string :=
  if String.eqb w EmptyString then ws else w :: ws.

(** The word being read from the left, and the words after it. *)
Fixpoint words (s : string) : string * list string :=
  match s with
  | EmptyString => (EmptyString, [])
  | String c s' =>
      let (w, ws) := words s' in
      if is_space c then (EmptyString, push_word w ws) else (String c w, ws)
  end.

(** [s.split()]: the fields between runs of white space, none empty. *)
Definition split (s : string) : list string :=
  let (w, ws) := words s in push_word w ws.

(** [sep.join(l)]. *)
Fixpoint join (sep : string) (l : list string) : string :=
  match l with
  | [] => EmptyString
  | [x] => x
  | x :: r => x ++ sep ++ join sep r
  end.

(** [s.find(sub) == -1]. *)
Definition not_found (sub s : string) : bool :=
  match String.index 0 sub s with
  | None => true
  | Some _ => false
  end.

Definition startswith (p s : string) : bool := String.prefix p s.

Definition digit (c : ascii) : option Z :=
  let n := nat_of_ascii c in
  if (Nat.leb 48 n && Nat.leb n 57)%bool then Some (Z.of_nat (n - 48)) else None.

Definition is_L (c : ascii) : bool :=
  (Ascii.eqb c "L" || Ascii.eqb c "l")%bool.

(** The digits of a [long] literal, with the one trailing [L] Python 2
    accepts. *)
Fixpoint digits (acc : Z) (s : string) : option Z :=
  match s with
  | EmptyString => Some acc
  | String c s' =>
      match digit c with
      | Some d => digits (10 * acc + d)%Z s'
      | None =>
          if (is_L c && String.eqb s' EmptyString)%bool then Some acc else None
      end
  end.

Definition unsigned (s : string) : option Z :=
  match s with
  | EmptyString => None
  | String c _ =>
      match digit c with
      | Some _ => digits 0 s
      | None => None
      end
  end.

(** [long(s)] on a field without white space: [None] is [ValueError]. *)
Definition long (s : string) : option Z :=
  match s with
  | String "-" r => option_map Z.opp (unsigned r)
  | String "+" r => unsigned r
  | _ => unsigned s
  end.

Definition decimal (n : Z) : string :=
  NilZero.string_of_uint (N.to_uint (Z.abs_N n)).

Fixpoint zeros (n : nat) : string :=
  match n with
  | O => EmptyString
  | S n' => String "0" (zeros n')
  end.

(** ["{0:0Wd}".format(num)]: the sign, then zeros up to the width [W]. *)
Definition format_0d (width : nat) (num : Z) : string :=
  let sign := if (num <? 0)%Z then "-" else EmptyString in
  let ds := decimal num in
  sign ++ zeros (width - String.length sign - String.length ds) ++ ds.

(** The truth value of an optional string: [None] and [""] are false. *)
Definition truthy (s : option string) : bool :=
  match s with
  | None => false
  | Some s => negb (String.eqb s EmptyString)
  end.

Definition get (s : option string) : string :=
  match s with
  | None => EmptyString
  | Some s => s
  end.

End Str.

(** ** Ring topology (the pure part) *)

Definition is_murmur_ring (ring : list Z) : bool :=
  existsb (fun i => i <? 0) ring.

(** [get_range_termination(token, ring)]; [None] is the [IndexError] of
    [ring[0]] on an empty ring. *)
Fixpoint first_above (token : Z) (ring : list Z) : option Z :=
  match ring with
  | [] => None
  | i :: rest => if token <? i then Some i else first_above token rest
  end.

Definition get_range_termination (token : Z) (ring : list Z) : option Z :=
  match first_above token ring with
  | Some i => Some i
  | None => hd_error ring
  end.

Definition format_murmur (num : Z) : string := Str.format_0d 20 num.
Definition format_md5 (num : Z) : string := Str.format_0d 39 num.

(** [sorted] on a list of [long]s. *)
Module ZOrder <: TotalLeBool.
Definition t := Z.
Definition leb := Z.leb.
Theorem leb_total : forall a b, leb a b = true \/ leb b a = true.
Proof.
  intros a b. unfold leb.
  destruct (Z.leb_spec a b); [left | right]; trivial. apply Z.leb_le. lia.
Qed.
End ZOrder.
Module ZSort := Sort ZOrder.
Definition sorted (l : list Z) : list Z := ZSort.sort l.

(** The loop of [get_ring_tokens] over the lines after the header. *)
Fixpoint ring_rows (lines : list string) (tokens : list Z) : exn + list Z :=
  match lines with
  | [] => inr tokens
  | line :: rest =>
      let segments := Str.split line in
      if (Nat.eqb (List.length segments) 8
          && negb (String.eqb (nth 3 segments EmptyString) "Joining"))%bool
      then
        match Str.long (last segments EmptyString) with
        | Some t => ring_rows rest (tokens ++ [t])
        | None => inl ValueError
        end
      else ring_rows rest tokens
  end.

(** The loop of [get_host_tokens] over the lines. *)
Fixpoint host_rows (lines : list string) (token_list : list Z) : exn + list Z :=
  match lines with
  | [] => inr token_list
  | line :: rest =>
      if negb (Str.startswith "Token" line) then host_rows rest token_list
      else
        match nth_error (Str.split line) 2 with
        | None => inl IndexError
        | Some p =>
            match Str.long p with
            | Some t => host_rows rest (token_list ++ [t])
            | None => inl ValueError
            end
        end
  end.

(** ** External processes and the event log *)

(** A [CommandResult]: the process (numbered by its rank among the spawned
    processes) and the command line. *)
Record CommandResult : Type := mkCommandResult { proc : nat; cmd : string }.

(** What [communicate()] and [returncode] give for a process. *)
Record outcome : Type :=
  mkOutcome { returncode : Z; stdout : string; stderr : string }.

(** The calls of [logging], by call site. *)
Inductive message : Type :=
| RunningRing
| RingTokensFound
| HostStdout (out : string)
| HostTokensFound
| ErrorRing (error : string)
| ErrorHost (error : string)
| RepairingRange (count total : nat) (token termination : string)
                 (steps repair_concurrency : Z) (keyspace : string)
| Collecting (n : nat)
| Failed (c : string)
| FailedStderr (err : string)
| Retrying (c : string)
| Step (steps : Z) (start stop keyspace : string).

Inductive event : Type :=
| Spawn (c : CommandResult)
| Wait (c : CommandResult) (rc : Z)
| Log (m : message)
| PrintHelp.

(** The log holds the events, the latest first. *)
Definition log : Type := list event.

(** The environment: what a process has done when it is waited for, given
    everything that happened before. *)
Definition World : Type := log -> CommandResult -> outcome.

Definition is_spawn (e : event) : bool :=
  match e with
  | Spawn _ => true
  | _ => false
  end.

Definition spawned (l : log) : nat := List.length (filter is_spawn l).

(** The result of a computation: a value, an uncaught exception, or a loop
    cut short by the fuel. *)
Inductive res (A : Type) : Type :=
| Ret (a : A)
| Exc (e : exn)
| OutOfFuel.
Arguments Ret {A} a.
Arguments Exc {A} e.
Arguments OutOfFuel {A}.

Definition M (A : Type) : Type := log -> res A * log.

Definition ret {A : Type} (a : A) : M A := fun l => (Ret a, l).

Definition bind {A B : Type} (m : M A) (k : A -> M B) : M B :=
  fun l =>
    match m l with
    | (Ret a, l') => k a l'
    | (Exc e, l') => (Exc e, l')
    | (OutOfFuel, l') => (OutOfFuel, l')
    end.

Definition raise {A : Type} (e : exn) : M A := fun l => (Exc e, l).
Definition out_of_fuel {A : Type} : M A := fun l => (OutOfFuel, l).
Definition emit (e : event) : M unit := fun l => (Ret tt, e :: l).
Definition logging (m : message) : M unit := emit (Log m).

Definition lift {A : Type} (r : exn + A) : M A :=
  match r with
  | inl e => raise e
  | inr a => ret a
  end.

Declare Scope m_scope.
Delimit Scope m_scope with m.
Notation "x <- m ;; k" := (bind m (fun x => k))
  (at level 61, m at next level, right associativity) : m_scope.
Notation "m ;; k" := (bind m (fun _ => k))
  (at level 61, right associativity) : m_scope.

(** ** The script's functions that run processes *)

Section Script.

Variable world : World.
(** The global [NODETOOL]. *)
Variable NODETOOL : option string.

Open Scope m_scope.
Open Scope string_scope.
Open Scope list_scope.

(** [run_command(command)], called with no [*args] throughout. *)
Definition run_command (command : string) : M CommandResult :=
  fun l =>
    let c := mkCommandResult (spawned l) command in
    (Ret c, Spawn c :: l).

(** [CommandResult.result]. *)
Definition result (c : CommandResult) : M (bool * Z * string * string * string) :=
  fun l =>
    let o := world l c in
    (Ret ((returncode o =? 0)%Z, returncode o, cmd c, stdout o, stderr o),
     Wait c (returncode o) :: l).

(** [CommandResult.retry]. *)
Definition retry (c : CommandResult) : M CommandResult :=
  logging (Retrying (cmd c)) ;; run_command (cmd c).

Definition get_nodetool_cmd : list string :=
  [if Str.truthy NODETOOL then Str.get NODETOOL else "nodetool"].

Definition host_option (host : option string) : list string :=
  if Str.truthy host then [("-h " ++ Str.get host)%string] else [].

(** The command lines of the two listings. *)
Definition ring_cmd (host : option string) : string :=
  Str.join " " (get_nodetool_cmd ++ host_option host ++ ["ring"]).

Definition info_cmd (host : option string) : string :=
  Str.join " " (get_nodetool_cmd ++ host_option host ++ ["info -T"]).

Definition get_ring_tokens (host : option string)
  : M (bool * list Z * option string) :=
  logging RunningRing ;;
  c <- run_command (ring_cmd host) ;;
  r <- result c ;;
  let '(success, _, _, out, err) := r in
  if negb success then ret (false, [], Some err)
  else
    logging RingTokensFound ;;
    tokens <- lift (ring_rows (skipn 6 (Str.split_on Str.newline out)) []) ;;
    ret (true, sorted tokens, None).

Definition get_host_tokens (host : option string)
  : M (bool * list Z * option string) :=
  c <- run_command (info_cmd host) ;;
  r <- result c ;;
  let '(success, _, _, out, err) := r in
  if (negb success || Str.not_found "Token" out)%bool then
    logging (HostStdout out) ;;
    ret (false, [], Some err)
  else
    logging HostTokensFound ;;
    token_list <- lift (host_rows (Str.split_on Str.newline out) []) ;;
    ret (true, token_list, None).

(** The command line built by [repair_range]. *)
Definition repair_range_cmd (keyspace : string) (start stop : string)
    (columnfamily host : option string) (all_dcs : bool) : string :=
  Str.join " "
    (get_nodetool_cmd ++ host_option host ++ [("repair " ++ keyspace)%string]
     ++ (if Str.truthy columnfamily then [Str.get columnfamily] else [])
     ++ (if negb all_dcs then ["-local"] else [])
     ++ [("-pr -st " ++ start ++ " -et " ++ stop)%string]).

Definition repair_range (keyspace : string) (start stop : string)
    (columnfamily host : option string) (all_dcs : bool) : M CommandResult :=
  run_command (repair_range_cmd keyspace start stop columnfamily host all_dcs).

(** The [for] of [collect_results] over [pending2], appending the retried
    commands to [pending]. *)
Fixpoint collect_pass (pending2 pending : list CommandResult)
  : M (list CommandResult) :=
  match pending2 with
  | [] => ret pending
  | command_result :: rest =>
      r <- result command_result ;;
      let '(ok, _, _, _, err) := r in
      if negb ok then
        logging (Failed (cmd command_result)) ;;
        logging (FailedStderr err) ;;
        c <- retry command_result ;;
        collect_pass rest (pending ++ [c])
      else collect_pass rest pending
  end.

(** [collect_results()], [pending] being [command_results[:]]; one unit of
    fuel for each turn of the [while]. *)
Fixpoint collect_results (fuel : nat) (pending : list CommandResult) : M unit :=
  match pending with
  | [] => ret tt
  | _ :: _ =>
      match fuel with
      | O => out_of_fuel
      | S fuel' =>
          logging (Collecting (List.length pending)) ;;
          pending' <- collect_pass pending [] ;;
          collect_results fuel' pending'
      end
  end.

Section Repair.

Variables (keyspace : string) (columnfamily host : option string).
Variables (repair_concurrency : Z) (all_dcs : bool).
(** The fuel given to each loop that the script does not bound. *)
Variable fuel : nat.

(** The [for] of [repair] over the sub-ranges of one owned range, and the
    [collect_results()] after it; [n] bounds the turns of the [for]. *)
Fixpoint dispatch (n : nat) (formatter : Z -> string) (g : SubRange.state)
    (command_results : list CommandResult) (processes steps : Z) : M unit :=
  match SubRange.next g with
  | StopIteration => collect_results fuel command_results
  | Raise e => raise e
  | Yield (start, stop) g' =>
      match n with
      | O => out_of_fuel
      | S n' =>
          let start := formatter start in
          let stop := formatter stop in
          logging (Step steps start stop keyspace) ;;
          c <- repair_range keyspace start stop columnfamily host all_dcs ;;
          let command_results := command_results ++ [c] in
          let processes := (processes + 1)%Z in
          if (processes =? repair_concurrency)%Z then
            collect_results fuel command_results ;;
            dispatch n' formatter g' [] 0%Z (steps - 1)%Z
          else
            dispatch n' formatter g' command_results processes (steps - 1)%Z
      end
  end.

(** The body of the [for] of [repair] over the host's tokens. *)
Definition repair_token (start_steps : Z) (ring_tokens : list Z)
    (total_tokens token_num : nat) (host_token : Z) : M unit :=
  let steps := start_steps in
  match get_range_termination host_token ring_tokens with
  | None => raise IndexError
  | Some range_termination =>
      let formatter :=
        if is_murmur_ring ring_tokens then format_murmur else format_md5 in
      logging (RepairingRange (token_num + 1) total_tokens
                 (formatter host_token) (formatter range_termination)
                 steps repair_concurrency keyspace) ;;
      dispatch fuel formatter
               (SubRange.Entry host_token range_termination steps) [] 0%Z steps
  end.

Fixpoint repair_tokens (start_steps : Z) (ring_tokens : list Z)
    (total_tokens token_num : nat) (host_token_list : list Z) : M unit :=
  match host_token_list with
  | [] => ret tt
  | host_token :: rest =>
      repair_token start_steps ring_tokens total_tokens token_num host_token ;;
      repair_tokens start_steps ring_tokens total_tokens (S token_num) rest
  end.

Definition repair (start_steps : Z) : M bool :=
  r <- get_ring_tokens host ;;
  let '(success, ring_tokens, error) := r in
  if negb success then
    logging (ErrorRing (Str.get error)) ;;
    ret false
  else
    r <- get_host_tokens host ;;
    let '(success, host_token_list, error) := r in
    if negb success then
      logging (ErrorHost (Str.get error)) ;;
      ret false
    else
      repair_tokens start_steps ring_tokens (List.length host_token_list) 0
                    host_token_list ;;
      ret true.

End Repair.

End Script.

(** ** setup_logging and main *)

(** The names of the levels of [logging]: on one of them
    [logging.getLevelName] returns the level, on any other string [s] it
    returns the string ["Level s"], which [logging.basicConfig] refuses with
    a [ValueError]. *)
Definition level_names : list string :=
  ["CRITICAL"; "ERROR"; "WARN"; "WARNING"; "INFO"; "DEBUG"; "NOTSET"]%string.

Definition known_level (name : string) : bool :=
  existsb (String.eqb name) level_names.

(** [os.getenv(name, default)], [value] being what the environment holds
    for [name]. *)
Definition getenv (value : option string) (default : string) : string :=
  match value with
  | Some v => v
  | None => default
  end.

(** [setup_logging(loglevel)]; [LOG_LEVEL] is the variable of the
    environment. *)
Definition setup_logging (LOG_LEVEL loglevel : option string) : M unit :=
  let log_level :=
    if Str.truthy loglevel then Str.get loglevel
    else getenv LOG_LEVEL "INFO"%string in
  if known_level log_level then ret tt else raise ValueError.

(** The parsed options. *)
Record options : Type := mkOptions {
  opt_keyspace : option string;
  opt_cf : option string;
  opt_host : option string;
  opt_steps : Z;
  opt_nodetool : option string;
  opt_repair_concurrency : Z;
  opt_all_dcs : bool;
  opt_verbose : bool
}.

(** [main()] after [parse_args]: the value is the argument of [sys.exit]. *)
Definition main (world : World) (LOG_LEVEL : option string) (fuel : nat)
    (o : options) : M Z :=
  if negb (Str.truthy (opt_keyspace o)) then
    bind (emit PrintHelp) (fun _ => ret 1)
  else
    bind (setup_logging LOG_LEVEL
            (if opt_verbose o then Some "DEBUG"%string else None))
         (fun _ =>
            bind (repair world (opt_nodetool o) (Str.get (opt_keyspace o))
                         (opt_cf o) (opt_host o) (opt_repair_concurrency o)
                         (opt_all_dcs o) fuel (opt_steps o))
                 (fun repair_status =>
                    if repair_status : bool then ret 0 else ret 2)).

(** ** Notions used to state the properties *)

(** [main] sets up logging without error: it asks for [DEBUG], or the
    environment names a level, or names none. *)
Definition logging_configured (LOG_LEVEL : option string) (o : options) : bool :=
  (opt_verbose o || known_level (getenv LOG_LEVEL "INFO"%string))%bool.

(** A row of the ring listing that [get_ring_tokens] keeps: eight fields,
    the fourth not [Joining]. *)
Definition accepted_row (line : string) : bool :=
  let segments := Str.split line in
  (Nat.eqb (List.length segments) 8
   && negb (String.eqb (nth 3 segments EmptyString) "Joining"))%bool.

Definition row_token (line : string) : list Z :=
  match Str.long (last (Str.split line) EmptyString) with
  | Some t => [t]
  | None => []
  end.

(** The tokens a ring listing shows, in the order of its rows: those of the
    kept rows after the six lines of header. *)
Definition listed_tokens (out : string) : list Z :=
  flat_map row_token (filter accepted_row (skipn 6 (Str.split_on Str.newline out))).

(** The process [get_ring_tokens] spawns from the log [l], and what it has
    done when waited for. *)
Definition ring_proc (NODETOOL host : option string) (l : log) : CommandResult :=
  mkCommandResult (spawned (Log RunningRing :: l)) (ring_cmd NODETOOL host).

Definition ring_listing (world : World) (NODETOOL host : option string) (l : log)
  : outcome :=
  world (Spawn (ring_proc NODETOOL host l) :: Log RunningRing :: l)
        (ring_proc NODETOOL host l).

(** The same for [get_host_tokens]. *)
Definition info_proc (NODETOOL host : option string) (l : log) : CommandResult :=
  mkCommandResult (spawned l) (info_cmd NODETOOL host).

Definition host_listing (world : World) (NODETOOL host : option string) (l : log)
  : outcome :=
  world (Spawn (info_proc NODETOOL host l) :: l) (info_proc NODETOOL host l).

(** The spawns less the waits, counted without regard to the process. *)
Definition delta (e : event) : Z :=
  match e with
  | Spawn _ => 1
  | Wait _ _ => -1
  | _ => 0
  end.

Fixpoint inflight (l : log) : Z :=
  match l with
  | [] => 0
  | e :: l' => inflight l' + delta e
  end.

(** The sub-range operations dispatched so far for the owned range being
    repaired: the [Step] messages since the last [RepairingRange]. *)
Fixpoint steps_in_range (l : log) : Z :=
  match l with
  | [] => 0
  | Log (Step _ _ _ _) :: l' => steps_in_range l' + 1
  | Log (RepairingRange _ _ _ _ _ _ _) :: _ => 0
  | _ :: l' => steps_in_range l'
  end.

(** Counting the events of a command line in the log. *)
Definition count (p : event -> bool) (l : log) : nat :=
  List.length (filter p l).

Definition is_wait_of (ok : bool) (c : string) (e : event) : bool :=
  match e with
  | Wait h rc => (String.eqb (cmd h) c && Bool.eqb (rc =? 0) ok)%bool
  | _ => false
  end.

Definition is_spawn_of (c : string) (e : event) : bool :=
  match e with
  | Spawn h => String.eqb (cmd h) c
  | _ => false
  end.

Definition is_retry_of (c : string) (e : event) : bool :=
  match e with
  | Log (Retrying c') => String.eqb c' c
  | _ => false
  end.

Definition successes (c : string) (l : log) : nat := count (is_wait_of true c) l.
Definition failures (c : string) (l : log) : nat := count (is_wait_of false c) l.
Definition spawns (c : string) (l : log) : nat := count (is_spawn_of c) l.
Definition retries (c : string) (l : log) : nat := count (is_retry_of c) l.

(** The occurrences of a command line in a list of command lines. *)
Definition occurrences (c : string) (cs : list string) : nat :=
  List.length (filter (fun x => String.eqb x c) cs).

(** The command lines [repair] dispatches for the owned ranges of
    [host_token_list], in order, the generators being consumed with [fuel]. *)
Definition planned (NODETOOL : option string) (keyspace : string)
    (columnfamily host : option string) (all_dcs : bool) (fuel : nat)
    (start_steps : Z) (ring_tokens host_token_list : list Z) : list string :=
  flat_map
    (fun host_token =>
       match get_range_termination host_token ring_tokens with
       | None => []
       | Some range_termination =>
           let formatter :=
             if is_murmur_ring ring_tokens then format_murmur else format_md5 in
           map (fun p : Z * Z =>
                  repair_range_cmd NODETOOL keyspace (formatter (fst p))
                                   (formatter (snd p)) columnfamily host all_dcs)
               (fst (get_sub_range_generator fuel host_token range_termination
                                             start_steps))
       end)
    host_token_list.

(** A world in which the command line [c] fails until it has failed [n]
    times, and succeeds from then on. *)
Definition fails_n_times (world : World) (c : string) (n : nat) : Prop :=
  forall (l : log) (h : CommandResult),
    cmd h = c ->
    (returncode (world l h) =? 0) = (n <=? failures c l)%nat.

(** The states the script goes through are the suffixes of the final log. *)
Definition every_state (P : log -> Prop) (l : log) : Prop :=
  forall pre post, l = (post ++ pre)%list -> P pre.

(** Two handles are the same process. *)
Definition same_handle (a b : CommandResult) : bool :=
  (Nat.eqb (proc a) (proc b) && String.eqb (cmd a) (cmd b))%bool.

(** [hs] without the first of its handles that is [h]. *)
Fixpoint without (h : CommandResult) (hs : list CommandResult)
  : list CommandResult :=
  match hs with
  | [] => []
  | x :: rest => if same_handle h x then rest else x :: without h rest
  end.

(** The processes in flight, the oldest first: those spawned and not yet
    waited for.  A wait takes its own process out, and no other. *)
Fixpoint running (l : log) : list CommandResult :=
  match l with
  | [] => []
  | Spawn h :: l' => running l' ++ [h]
  | Wait h _ :: l' => without h (running l')
  | _ :: l' => running l'
  end.

(** The spawns and the waits of one process in the log. *)
Definition is_spawn_at (h : CommandResult) (e : event) : bool :=
  match e with
  | Spawn h' => same_handle h h'
  | _ => false
  end.

Definition is_wait_at (h : CommandResult) (e : event) : bool :=
  match e with
  | Wait h' _ => same_handle h h'
  | _ => false
  end.

Definition launches (h : CommandResult) (l : log) : nat := count (is_spawn_at h) l.
Definition waits (h : CommandResult) (l : log) : nat := count (is_wait_at h) l.

(** How many times the process [h] is in flight. *)
Definition in_flight_of (h : CommandResult) (l : log) : nat :=
  List.length (filter (same_handle h) (running l)).

(** What holds of each state whatever the concurrency, by its last event:
    a spawn makes a process with a number not used before, and right after
    a [Retrying] message it runs the command line of that message; a wait
    is for a process in flight; a [Retrying] message follows the failed
    wait of a process of the same command line and its two messages; an
    owned range is begun with no process in flight. *)
Definition orderly (pre : log) : Prop :=
  match pre with
  | Spawn h :: rest =>
      proc h = spawned rest /\
      match rest with
      | Log (Retrying c) :: _ => cmd h = c
      | _ => True
      end
  | Wait h _ :: rest => In h (running rest)
  | Log (Retrying c) :: rest =>
      exists h rc err rest',
        rest = Log (FailedStderr err) :: Log (Failed c) :: Wait h rc :: rest' /\
        cmd h = c /\ rc <> 0
  | Log (RepairingRange _ _ _ _ _ _ _) :: rest => running rest = []
  | _ => True
  end.

(** What holds of each state under the batch barrier, for the concurrency
    [c]: at most [c] processes are in flight; when a sub-range operation is
    about to be dispatched the processes in flight are those of its
    batch. *)
Definition settled (c : Z) (pre : log) : Prop :=
  Z.of_nat (List.length (running pre)) <= c /\
  match pre with
  | Log (Step _ _ _ _) :: rest =>
      Z.of_nat (List.length (running rest)) = steps_in_range rest mod c
  | _ => True
  end.

(** The two together, the barrier for a concurrency of 1 or more. *)
Definition kept (c : Z) (pre : log) : Prop :=
  orderly pre /\ (1 <= c -> settled c pre).

(** An event that is no spawn, wait, [Step], [RepairingRange] or
    [Retrying]. *)
Definition quiet (e : event) : Prop :=
  match e with
  | Spawn _ | Wait _ _ => False
  | Log (Step _ _ _ _) => False
  | Log (RepairingRange _ _ _ _ _ _ _) => False
  | Log (Retrying _) => False
  | _ => True
  end.

(** A world in which every command line [c] fails until it has failed
    [N c] times, and succeeds from then on. *)
Definition scripted (world : World) (N : string -> nat) : Prop :=
  forall c, fails_n_times world c (N c).

(** A log that such a world can have produced: no command line has failed
    more than its number of times, and one that has succeeded has failed
    that number of times. *)
Definition on_script (N : string -> nat) (l : log) : Prop :=
  forall c,
    (failures c l <= N c)%nat /\
    ((0 < successes c l)%nat -> (N c <= failures c l)%nat).

(** The handles of a command line among the pending ones. *)
Definition count_cmd (c : string) (hs : list CommandResult) : nat :=
  List.length (filter (fun h => String.eqb (cmd h) c) hs).

(** How the counts of the command line [c] move from the log [l] to [l']
    when [waited] of its processes are brought to success and [launched]
    are dispatched: every failure is matched by one retry, which spawns the
    same command line again. *)
Definition ledger (c : string) (l l' : log) (waited launched : nat) : Prop :=
  successes c l' = (successes c l + waited)%nat /\
  (spawns c l' + failures c l = spawns c l + failures c l' + launched)%nat /\
  (retries c l' + failures c l = retries c l + failures c l')%nat /\
  (failures c l <= failures c l')%nat.

(** The arithmetic progression of [n] terms from [a] by [st]. *)
Fixpoint progression (a st : Z) (n : nat) : list Z :=
  match n with
  | O => []
  | S n' => a :: progression (a + st) st n'
  end.

(** A suspended [lrange] whose [while] can never become false. *)
Definition looping (s : Lrange.state) : Prop :=
  (Lrange.op s = Lrange.Le /\ Lrange.num1 s <= Lrange.num2 s /\ Lrange.step s <= 0) \/
  (Lrange.op s = Lrange.Gt /\ Lrange.num2 s < Lrange.num1 s /\ 0 <= Lrange.step s).

(** The pairs made by a walk from [s] over the values [vs], with the tail
    pair up to [stop] when the last value is below it. *)
Fixpoint chain (s : Z) (vs : list Z) (stop : Z) : list (Z * Z) :=
  match vs with
  | [] => if s <? stop then [(s, stop)] else []
  | v :: vs' => (s, v) :: chain v vs' stop
  end.

(** The end of the last pair of a list of pairs, [d] for none. *)
Definition last_end (l : list (Z * Z)) (d : Z) : Z := snd (last l (d, d)).

(** The number written by the decimal digits [d] after the digits that
    gave [acc]. *)
Fixpoint uint_val (acc : Z) (d : Decimal.uint) : Z :=
  match d with
  | Decimal.Nil => acc
  | Decimal.D0 l => uint_val (10 * acc + 0) l
  | Decimal.D1 l => uint_val (10 * acc + 1) l
  | Decimal.D2 l => uint_val (10 * acc + 2) l
  | Decimal.D3 l => uint_val (10 * acc + 3) l
  | Decimal.D4 l => uint_val (10 * acc + 4) l
  | Decimal.D5 l => uint_val (10 * acc + 5) l
  | Decimal.D6 l => uint_val (10 * acc + 6) l
  | Decimal.D7 l => uint_val (10 * acc + 7) l
  | Decimal.D8 l => uint_val (10 * acc + 8) l
  | Decimal.D9 l => uint_val (10 * acc + 9) l
  end.

(** The token a line of the host listing shows: its third field. *)
Definition host_line_token (line : string) : list Z :=
  match nth_error (Str.split line) 2 with
  | Some p =>
      match Str.long p with
      | Some t => [t]
      | None => []
      end
  | None => []
  end.

(** The tokens a host listing shows, in the order of its lines: those of
    the lines that begin with [Token]. *)
Definition host_listed_tokens (out : string) : list Z :=
  flat_map host_line_token
           (filter (Str.startswith "Token") (Str.split_on Str.newline out)).

(** The handles and the log after the operations of [pairs] are dispatched
    one after the other with no wait in between. *)
Fixpoint spawn_all (NODETOOL : option string) (keyspace : string)
    (columnfamily host : option string) (all_dcs : bool) (fmt : Z -> string)
    (pairs : list (Z * Z)) (steps : Z) (crs : list CommandResult) (l : log)
  : list CommandResult * log :=
  match pairs with
  | [] => (crs, l)
  | (a, b) :: rest =>
      let l1 := Log (Step steps (fmt a) (fmt b) keyspace) :: l in
      let h := mkCommandResult (spawned l1)
                 (repair_range_cmd NODETOOL keyspace (fmt a) (fmt b)
                                   columnfamily host all_dcs) in
      spawn_all NODETOOL keyspace columnfamily host all_dcs fmt rest
                (steps - 1) (crs ++ [h]) (Spawn h :: l1)
  end.

(** The [Step] messages of a log, the oldest first: the label and the
    bounds of each sub-range dispatched. *)
Definition step_of (e : event) : list (Z * string * string) :=
  match e with
  | Log (Step steps start stop _) => [(steps, start, stop)]
  | _ => []
  end.

Definition steps_logged (l : log) : list (Z * string * string) :=
  flat_map step_of (rev l).

(** The pairs, formatted, labelled downwards from [steps]. *)
Fixpoint countdown (fmt : Z -> string) (pairs : list (Z * Z)) (steps : Z)
  : list (Z * string * string) :=
  match pairs with
  | [] => []
  | (a, b) :: rest => (steps, fmt a, fmt b) :: countdown fmt rest (steps - 1)
  end.

(** The command lines spawned, the oldest first. *)
Definition spawn_of (e : event) : list string :=
  match e with
  | Spawn h => [cmd h]
  | _ => []
  end.

Definition spawned_cmds (l : log) : list string := flat_map spawn_of (rev l).

(** The command lines [repair] may spawn: the two listings, and the repair
    of some range with the keyspace and options given. *)
Definition allowed (NODETOOL : option string) (keyspace : string)
    (columnfamily host : option string) (all_dcs : bool) (c : string) : Prop :=
  c = ring_cmd NODETOOL host \/ c = info_cmd NODETOOL host \/
  exists start stop,
    c = repair_range_cmd NODETOOL keyspace start stop columnfamily host all_dcs.

(** ** Sample listings and worlds *)

Module Sample.
Open Scope string_scope.

Definition text (lines : list string) : string :=
  Str.join (String Str.newline EmptyString) lines.

Definition header : list string :=
  [""; "Datacenter: dc1"; "=========="; "Address Rack Status State Load Owns Token";
   "   30"; ""].

(** Three nodes and a joining one. *)
Definition ring_out : string :=
  text (header ++
        ["10.0.0.1 r1 Up Normal 1.2 GB 33% 10";
         "10.0.0.4 r1 Up Joining 1.2 GB 33% 15";
         "10.0.0.3 r1 Up Normal 1.2 GB 33% 30";
         "10.0.0.2 r1 Up Normal 1.2 GB 33% 20"; ""])%list.

(** The token 10 on two rows. *)
Definition ring_dup_out : string :=
  text (header ++
        ["10.0.0.1 r1 Up Normal 1.2 GB 50% 10";
         "10.0.0.2 r1 Up Normal 1.2 GB 50% 10"; ""])%list.

Definition info_out : string := text ["ID : abc"; "Token : 20"; "Load : 1.2 GB"].

(** Every process succeeds; the ring listing is [ring]. *)
Definition calm (ring : string) : World :=
  fun _ h =>
    if String.eqb (cmd h) "nodetool ring" then mkOutcome 0 ring ""
    else if String.eqb (cmd h) "nodetool info -T" then mkOutcome 0 info_out ""
    else mkOutcome 0 "" "".



Definition flaky_cmd : string :=
  "nodetool repair ks -local -pr -st 000000000000000000000000000000000000022 -et 000000000000000000000000000000000000024".

(** The repair of one sub-range fails twice, then succeeds. *)
Definition flaky : World :=
  fun l h =>
    if String.eqb (cmd h) flaky_cmd then
      if (2 <=? failures flaky_cmd l)%nat then mkOutcome 0 "" ""
      else mkOutcome 1 "" "boom"
    else calm ring_out l h.

Definition opts (keyspace : option string) : options :=
  mkOptions keyspace None None 5 None 2 false false.

(** The ring listing shows no node. *)
Definition empty_ring : World := calm (text header).

(** The host listing has its [Token] line indented. *)
Definition indented_token : World :=
  fun _ h =>
    if String.eqb (cmd h) "nodetool ring" then mkOutcome 0 ring_out ""
    else mkOutcome 0 (text ["ID : abc"; "  Token : 20"]) "".

(** A kept row of the ring listing has no number in its last field. *)
Definition odd_row : World :=
  calm (text (header ++ ["10.0.0.1 r1 Up Normal 1.2 GB 33% ten"])%list).

(** Every process fails. *)
Definition broken : World := fun _ _ => mkOutcome 1 "" "down".

(** The run of [repair] in the world [flaky], from an empty log: keyspace
    [ks], a concurrency of 2, 5 steps. *)
Definition flaky_run : res bool * log :=
  repair flaky None "ks" None None 2 false 10 5 [].

(** The run of [repair] with a concurrency of 0, every process succeeding. *)
Definition unbounded_run : res bool * log :=
  repair (calm ring_out) None "ks" None None 0 false 10 5 [].

(** The times each command line fails in the world [flaky]. *)
Definition flaky_script (c : string) : nat :=
  if String.eqb c flaky_cmd then 2%nat else 0%nat.

End Sample.

(** * Properties *)

(** ** The range partitioner *)

Lemma drain_finished (fuel : nat) :
  drain SubRange.next fuel SubRange.Finished = ([], Exhausted).
Proof. destruct fuel; reflexivity. Qed.

(** Where the condition of the special case fails, one pair is yielded. *)
Lemma degenerate_single (start stop steps : Z) (fuel : nat) :
  stop <= start + steps + 1 ->
  get_sub_range_generator (S fuel) start stop steps = ([(start, stop)], Exhausted).
Proof.
  intros H. unfold get_sub_range_generator. simpl.
  destruct (Z.ltb_spec (start + steps + 1) stop) as [Hlt | _]; [lia |].
  now rewrite drain_finished.
Qed.

Lemma drain_S {A S : Type} (next : S -> pull A S) (fuel : nat) (s : S) :
  drain next (Datatypes.S fuel) s =
  match next s with
  | StopIteration => ([], Exhausted)
  | Raise e => ([], Raised e)
  | Yield a s' => let (l, e) := drain next fuel s' in (a :: l, e)
  end.
Proof. reflexivity. Qed.

Lemma drain_raise {A S : Type} (next : S -> pull A S) (fuel : nat) (s : S) (e : exn) :
  next s = Raise e -> drain next fuel s = ([], Raised e).
Proof. intros H. destruct fuel; simpl; rewrite H; reflexivity. Qed.

Lemma drain_stop {A S : Type} (next : S -> pull A S) (fuel : nat) (s : S) :
  next s = StopIteration -> drain next fuel s = ([], Exhausted).
Proof. intros H. destruct fuel; simpl; rewrite H; reflexivity. Qed.

(** A generator exhausted with some fuel is exhausted, with the same
    values, with more. *)
Lemma drain_more_fuel {A S : Type} (next : S -> pull A S) (n k : nat) :
  forall (s : S) (l : list A),
    drain next n s = (l, Exhausted) -> drain next (n + k) s = (l, Exhausted).
Proof.
  induction n as [| n IH]; intros s l H.
  - simpl in H. destruct (next s) as [a s' | | e] eqn:E; try discriminate H.
    injection H as <-. now apply drain_stop.
  - change (Datatypes.S n + k)%nat with (Datatypes.S (n + k)).
    rewrite drain_S in *. destruct (next s) as [a s' | | e]; trivial.
    destruct (drain next n s') as [l0 e0] eqn:E.
    injection H as <- ->. now rewrite (IH s' l0 E).
Qed.

(** One turn of the walk over an ascending [lrange]. *)
Lemma walk_ascending (s stop n1 n2 st : Z) :
  SubRange.walk s stop (Lrange.mk n1 n2 st Lrange.Le) =
  if n1 <=? n2 then
    Yield (s, n1) (SubRange.Walking n1 stop (Lrange.mk (n1 + st) n2 st Lrange.Le))
  else if s <? stop then Yield (s, stop) SubRange.Finished
  else StopIteration.
Proof.
  unfold SubRange.walk, Lrange.next. simpl. destruct (n1 <=? n2); reflexivity.
Qed.

(** The walk over an ascending [lrange] ends: the distance from [num1] to
    [num2] bounds the number of turns. *)
Lemma walking_exhausts (n : nat) :
  forall (s stop n1 n2 st : Z) (fuel : nat),
    0 < st -> n2 - n1 < Z.of_nat n -> (n < fuel)%nat ->
    exists l,
      drain SubRange.next fuel
            (SubRange.Walking s stop (Lrange.mk n1 n2 st Lrange.Le))
      = (l, Exhausted).
Proof.
  induction n as [| n IH]; intros s stop n1 n2 st fuel Hst Hd Hf;
    (destruct fuel as [| fuel]; [lia |]);
    rewrite drain_S; cbn [SubRange.next]; rewrite walk_ascending.
  - destruct (Z.leb_spec n1 n2) as [Hle | Hgt]; [lia |].
    destruct (s <? stop); [rewrite drain_finished |]; eauto.
  - destruct (Z.leb_spec n1 n2) as [Hle | Hgt].
    + destruct (IH n1 stop (n1 + st) n2 st fuel) as [l Hl]; try lia.
      rewrite Hl. eauto.
    + destruct (s <? stop); [rewrite drain_finished |]; eauto.
Qed.

(** The increment of the general case is positive and fits in the range. *)
Lemma increment_bounds (start stop steps : Z) :
  1 <= steps -> start + steps + 1 < stop ->
  1 <= Z.abs (stop - start) / steps <= stop - start.
Proof.
  intros Hs Hlt. rewrite Z.abs_eq by lia. split.
  - apply Z.div_le_lower_bound; lia.
  - apply Z.div_le_upper_bound; nia.
Qed.

(** With [steps >= 1] the generator is exhausted after finitely many pairs,
    whatever the bounds. *)
Lemma partition_total (start stop steps : Z) :
  1 <= steps ->
  exists n, forall fuel, (n <= fuel)%nat ->
    exists l, get_sub_range_generator fuel start stop steps = (l, Exhausted).
Proof.
  intros Hs. exists (S (S (S (Z.to_nat (Z.abs (stop - start)))))).
  intros [| fuel] Hf; [lia |].
  destruct (Z.lt_ge_cases (start + steps + 1) stop) as [Hlt | Hge].
  - pose proof (increment_bounds start stop steps Hs Hlt) as [Hlo Hhi].
    unfold get_sub_range_generator.
    set (inc := Z.abs (stop - start) / steps) in *.
    assert (Hentry : SubRange.next (SubRange.Entry start stop steps)
                     = SubRange.walk start stop
                         (Lrange.mk (start + inc) (stop + 1) inc Lrange.Le)).
    { simpl. destruct (Z.ltb_spec (start + steps + 1) stop); [| lia].
      destruct (Z.eqb_spec steps 0); [lia |].
      fold inc. unfold Lrange.init.
      destruct (Z.ltb_spec (stop + 1) (start + inc)); [lia |].
      destruct (Z.ltb_spec inc 0); [lia | reflexivity]. }
    destruct (walking_exhausts (S (Z.to_nat (Z.abs (stop - start)))) start stop
                (start + inc) (stop + 1) inc (S fuel)) as [l Hl]; [lia .. |].
    exists l. rewrite <- Hl.
    rewrite !drain_S. rewrite Hentry. reflexivity.
  - exists [(start, stop)]. apply degenerate_single. lia.
Qed.

(** C6. Degenerate case: for [start < stop] and [steps >= 1] with
    [stop - start <= steps + 1], the generator yields exactly the one pair
    [(start, stop)]. *)
Theorem partition_degenerate (start stop steps : Z) (fuel : nat) :
  start < stop -> 1 <= steps -> stop - start <= steps + 1 ->
  get_sub_range_generator (S fuel) start stop steps = ([(start, stop)], Exhausted).
Proof. intros _ _ H. apply degenerate_single. lia. Qed.

Lemma partition_degenerate_witness :
  get_sub_range_generator 1 0 3 5 = ([(0, 3)], Exhausted).
Proof. apply (partition_degenerate 0 3 5 0); lia. Defined.

(** C10. For [steps >= 1] an empty or reversed range ([start >= stop]) takes
    the degenerate branch and yields exactly [(start, stop)]; and with
    [steps >= 1] the generator is exhausted after finitely many pairs for
    all bounds, so the operation is total there. *)
Theorem partition_reversed_range (start stop steps : Z) :
  1 <= steps ->
  (stop <= start ->
   forall fuel,
     get_sub_range_generator (S fuel) start stop steps
     = ([(start, stop)], Exhausted)) /\
  (exists n, forall fuel, (n <= fuel)%nat ->
     exists l, get_sub_range_generator fuel start stop steps = (l, Exhausted)).
Proof.
  intros Hs. split.
  - intros H fuel. apply degenerate_single. lia.
  - now apply partition_total.
Qed.

Lemma partition_reversed_range_witness :
  get_sub_range_generator 1 5 3 2 = ([(5, 3)], Exhausted).
Proof.
  apply (proj1 (partition_reversed_range 5 3 2 ltac:(lia))). lia.
Defined.

(** C1, at the input [start = 0], [stop = 5], [steps = 3]: the increment is
    1, [lrange(1, 6, 1)] runs up to 6 included, and the last pair is
    [(5, 6)]: the pairs do not reconstruct [[0, 5]]. *)
Theorem partition_overshoots :
  (forall k,
     get_sub_range_generator (6 + k) 0 5 3
     = ([(0, 1); (1, 2); (2, 3); (3, 4); (4, 5); (5, 6)], Exhausted)) /\
  ~ reconstructs 0 5 [(0, 1); (1, 2); (2, 3); (3, 4); (4, 5); (5, 6)].
Proof.
  split.
  - intros k. apply drain_more_fuel. vm_compute. reflexivity.
  - intros (_ & _ & q & Hq & Hs). simpl in Hq. inversion Hq; subst q.
    simpl in Hs. lia.
Qed.

(** C2, at the input [start = 0], [stop = 9], [steps = 5]: the increment is
    [9 / 5 = 1] and ten pairs are yielded, more than [steps + 1 = 6]. *)
Theorem partition_pair_count_exceeds :
  forall k, exists l,
    get_sub_range_generator (10 + k) 0 9 5 = (l, Exhausted) /\
    List.length l = 10%nat /\
    5 + 1 < Z.of_nat (List.length l).
Proof.
  intros k.
  exists [(0, 1); (1, 2); (2, 3); (3, 4); (4, 5); (5, 6); (6, 7); (7, 8);
          (8, 9); (9, 10)].
  split; [| split; [reflexivity | reflexivity]].
  apply drain_more_fuel. vm_compute. reflexivity.
Qed.

(** C5 fails as stated: with [steps = 0], [start = 5] and [stop = 3] no
    error is raised, the pair [(5, 3)] is yielded. *)
Lemma nonpositive_steps_no_error :
  0 <= 0 /\
  get_sub_range_generator 1 5 3 0 = ([(5, 3)], Exhausted) /\
  forall fuel, ~ exists l e, get_sub_range_generator fuel 5 3 0 = (l, Raised e).
Proof.
  split; [lia |]. split; [reflexivity |].
  intros fuel (l & e & H). destruct fuel as [| fuel].
  - discriminate H.
  - rewrite degenerate_single in H by lia. discriminate H.
Qed.

(** C5, amended.  [steps] is not validated.  For [steps <= 0]: where
    [start + steps + 1 >= stop] exactly the pair [(start, stop)] is yielded
    and no error is raised; [steps = 0] with [start + 1 < stop] raises the
    division by zero on the first pull; [steps < 0] with
    [start + steps + 1 < stop] yields a first pair beginning at [start]. *)
Theorem partition_nonpositive_steps (start stop steps : Z) :
  steps <= 0 ->
  (stop <= start + steps + 1 ->
   forall fuel,
     get_sub_range_generator (S fuel) start stop steps
     = ([(start, stop)], Exhausted)) /\
  (steps = 0 -> start + 1 < stop ->
   forall fuel,
     get_sub_range_generator fuel start stop steps
     = ([], Raised ZeroDivisionError)) /\
  (steps < 0 -> start + steps + 1 < stop ->
   exists i s',
     SubRange.next (SubRange.Entry start stop steps) = Yield (start, i) s').
Proof.
  intros Hs. repeat split.
  - intros H fuel. now apply degenerate_single.
  - intros -> Hlt fuel. unfold get_sub_range_generator.
    assert (E : SubRange.next (SubRange.Entry start stop 0) = Raise ZeroDivisionError).
    { simpl. destruct (Z.ltb_spec (start + 0 + 1) stop); [reflexivity | lia]. }
    now apply drain_raise.
  - intros Hneg Hlt. simpl.
    destruct (Z.ltb_spec (start + steps + 1) stop); [| lia].
    destruct (Z.eqb_spec steps 0); [lia |].
    set (inc := Z.abs (stop - start) / steps).
    assert (Hinc : inc <= 0).
    { subst inc. pose proof (Z.abs_nonneg (stop - start)) as Ha.
      pose proof (Z.div_mod (Z.abs (stop - start)) steps ltac:(lia)) as Hdm.
      pose proof (Z.mod_neg_bound (Z.abs (stop - start)) steps Hneg) as Hm.
      nia. }
    unfold SubRange.walk, Lrange.next, Lrange.init.
    destruct (Z.ltb_spec (stop + 1) (start + inc)) as [H1 | H1].
    + destruct (Z.gtb_spec inc 0); [lia |]. simpl.
      destruct (Z.gtb_spec (start + inc) (stop + 1)); [| lia]. eauto.
    + destruct (Z.ltb_spec inc 0) as [H2 | H2]; simpl.
      * rewrite Z.leb_refl. eauto.
      * destruct (Z.leb_spec (start + inc) (stop + 1)); [| lia]. eauto.
Qed.

Lemma partition_nonpositive_steps_witness :
  get_sub_range_generator 1 5 3 0 = ([(5, 3)], Exhausted).
Proof.
  apply (proj1 (partition_nonpositive_steps 5 3 0 ltac:(lia))). lia.
Defined.

(** ** Ring topology *)

(** What the [for] of [get_range_termination] finds in an ascending ring. *)
Lemma first_above_spec (token : Z) (ring : list Z) :
  StronglySorted Z.lt ring ->
  match first_above token ring with
  | Some r =>
      In r ring /\ token < r /\ forall x, In x ring -> token < x -> r <= x
  | None => forall x, In x ring -> x <= token
  end.
Proof.
  induction 1 as [| a ring Hs IH Ha]; simpl.
  - intros x [].
  - destruct (Z.ltb_spec token a) as [Hlt | Hge].
    + split; [now left |]. split; [exact Hlt |].
      intros x [<- | Hx] _; [lia |].
      rewrite Forall_forall in Ha. specialize (Ha x Hx). lia.
    + destruct (first_above token ring) as [r |].
      * destruct IH as (Hin & Hlt & Hmin). split; [now right |].
        split; [exact Hlt |]. intros x [<- | Hx] Hx'; [lia | now apply Hmin].
      * intros x [<- | Hx]; [lia | now apply IH].
Qed.

(** C3. On a non-empty, strictly ascending ring [get_range_termination]
    returns a ring token: the smallest one strictly greater than [token],
    or, when no ring token is strictly greater, the ring's first and
    smallest token; a ring of one token wraps to that token. *)
Theorem range_termination_correct (token : Z) (ring : list Z) :
  ring <> [] -> Sorted Z.lt ring ->
  exists r,
    get_range_termination token ring = Some r /\
    In r ring /\
    ((token < r /\ forall x, In x ring -> token < x -> r <= x) \/
     ((forall x, In x ring -> x <= token) /\
      hd_error ring = Some r /\
      forall x, In x ring -> r <= x)) /\
    (forall x, ring = [x] -> r = x).
Proof.
  intros Hne Hsorted.
  assert (Hss : StronglySorted Z.lt ring).
  { apply Sorted_StronglySorted; [| exact Hsorted]. intros a b c. apply Z.lt_trans. }
  pose proof (first_above_spec token ring Hss) as Hfa.
  unfold get_range_termination.
  destruct (first_above token ring) as [r |].
  - destruct Hfa as (Hin & Hlt & Hmin). exists r.
    split; [reflexivity |]. split; [exact Hin |]. split; [left; auto |].
    intros x ->. destruct Hin as [<- | []]. reflexivity.
  - destruct ring as [| a ring]; [contradiction |]. exists a. simpl.
    split; [reflexivity |]. split; [now left |]. split.
    + right. split; [exact Hfa |]. split; [reflexivity |].
      intros x [<- | Hx]; [lia |].
      apply StronglySorted_inv in Hss as [_ Ha].
      rewrite Forall_forall in Ha. specialize (Ha x Hx). lia.
    + intros x [= ->]. reflexivity.
Qed.

Lemma range_termination_correct_witness :
  exists r,
    get_range_termination 30 [10; 20; 30] = Some r /\
    In r [10; 20; 30] /\
    ((30 < r /\ forall x, In x [10; 20; 30] -> 30 < x -> r <= x) \/
     ((forall x, In x [10; 20; 30] -> x <= 30) /\
      hd_error [10; 20; 30] = Some r /\
      forall x, In x [10; 20; 30] -> r <= x)) /\
    (forall x, [10; 20; 30] = [x] -> r = x).
Proof.
  apply (range_termination_correct 30 [10; 20; 30]).
  - discriminate.
  - repeat constructor; lia.
Defined.

(** The loop of [get_ring_tokens] appends the tokens of the kept rows. *)
Lemma ring_rows_listed (lines : list string) :
  forall tokens toks,
    ring_rows lines tokens = inr toks ->
    toks = tokens ++ flat_map row_token (filter accepted_row lines).
Proof.
  induction lines as [| line rest IH]; intros tokens toks; simpl.
  - intros [= <-]. now rewrite app_nil_r.
  - unfold accepted_row at 1.
    destruct (Nat.eqb (List.length (Str.split line)) 8
              && negb (String.eqb (nth 3 (Str.split line) EmptyString) "Joining"))%bool.
    + simpl. unfold row_token at 1.
      destruct (Str.long (last (Str.split line) EmptyString)) as [t |];
        [| discriminate].
      intros H. apply IH in H. rewrite H, <- app_assoc. reflexivity.
    + apply IH.
Qed.

(** [get_ring_tokens], step by step. *)
Lemma get_ring_tokens_unfold (world : World) (NODETOOL host : option string)
    (l : log) :
  get_ring_tokens world NODETOOL host l =
  let c := ring_proc NODETOOL host l in
  let o := ring_listing world NODETOOL host l in
  let l1 := Wait c (returncode o) :: Spawn c :: Log RunningRing :: l in
  if returncode o =? 0 then
    match ring_rows (skipn 6 (Str.split_on Str.newline (stdout o))) [] with
    | inl e => (Exc e, Log RingTokensFound :: l1)
    | inr tokens => (Ret (true, sorted tokens, None), Log RingTokensFound :: l1)
    end
  else (Ret (false, [], Some (stderr o)), l1).
Proof.
  unfold get_ring_tokens, bind, logging, emit, run_command, result, ret,
    ring_listing, ring_proc. simpl.
  destruct (returncode _ =? 0); simpl; [| reflexivity].
  destruct (ring_rows _ []); reflexivity.
Qed.

Lemma sorted_ascending (l : list Z) : Sorted Z.le (sorted l).
Proof.
  unfold sorted. pose proof (ZSort.Sorted_sort l) as H.
  induction H as [| a s Hs IH Hhd]; constructor; trivial.
  destruct Hhd as [| b s' Hab]; constructor.
  apply Z.leb_le. exact Hab.
Qed.

(** C4 fails as stated: a listing with the token 10 on two rows is accepted
    and the tokens returned hold 10 twice. *)
Lemma ring_tokens_duplicated :
  get_ring_tokens (Sample.calm Sample.ring_dup_out) None None []
  = (Ret (true, [10; 10], None),
     [Log RingTokensFound; Wait (mkCommandResult 0 "nodetool ring") 0;
      Spawn (mkCommandResult 0 "nodetool ring"); Log RunningRing]) /\
  ~ NoDup [10; 10].
Proof.
  split; [reflexivity |].
  intros H. inversion H as [| x l Hin _]; subst. apply Hin. now left.
Qed.

(** C4, amended.  For every ring listing accepted by [get_ring_tokens], the
    tokens returned are ascending and are, with their multiplicities, the
    tokens of the rows after the six header lines that have eight fields and
    are not flagged as joining; they are duplicate-free exactly when no token
    is shown on two such rows. *)
Theorem ring_tokens_ascending (world : World) (NODETOOL host : option string)
    (l l' : log) (toks : list Z) (err : option string) :
  get_ring_tokens world NODETOOL host l = (Ret (true, toks, err), l') ->
  let out := stdout (ring_listing world NODETOOL host l) in
  Sorted Z.le toks /\
  Permutation (listed_tokens out) toks /\
  (forall t, In t toks ->
     exists line,
       In line (skipn 6 (Str.split_on Str.newline out)) /\
       List.length (Str.split line) = 8%nat /\
       nth 3 (Str.split line) EmptyString <> "Joining"%string /\
       Str.long (last (Str.split line) EmptyString) = Some t) /\
  (NoDup toks <-> NoDup (listed_tokens out)).
Proof.
  rewrite get_ring_tokens_unfold. cbv zeta.
  destruct (returncode _ =? 0); [| discriminate].
  destruct (ring_rows _ []) as [e | tokens] eqn:Hrows; [discriminate |].
  intros [= <- _ _]. apply ring_rows_listed in Hrows. simpl in Hrows.
  fold (listed_tokens (stdout (ring_listing world NODETOOL host l))) in Hrows.
  subst tokens.
  set (out := stdout (ring_listing world NODETOOL host l)).
  assert (Hperm : Permutation (listed_tokens out) (sorted (listed_tokens out)))
    by apply ZSort.Permuted_sort.
  split; [apply sorted_ascending |]. split; [exact Hperm |]. split.
  - intros t Ht. apply (Permutation_in _ (Permutation_sym Hperm)) in Ht.
    unfold listed_tokens in Ht. apply in_flat_map in Ht as (line & Hline & Htok).
    apply filter_In in Hline as [Hin Hacc]. exists line.
    split; [exact Hin |]. unfold accepted_row in Hacc.
    apply andb_true_iff in Hacc as [Hlen Hj].
    split; [now apply Nat.eqb_eq |]. split.
    + intros Heq. rewrite Heq in Hj. discriminate Hj.
    + unfold row_token in Htok.
      destruct (Str.long (last (Str.split line) EmptyString)) as [t' |];
        [| contradiction].
      destruct Htok as [<- | []]. reflexivity.
  - split; apply Permutation_NoDup; [now apply Permutation_sym | exact Hperm].
Qed.

Lemma ring_tokens_ascending_witness :
  let out := stdout (ring_listing (Sample.calm Sample.ring_out) None None []) in
  Sorted Z.le [10; 20; 30] /\
  Permutation (listed_tokens out) [10; 20; 30] /\
  (forall t, In t [10; 20; 30] ->
     exists line,
       In line (skipn 6 (Str.split_on Str.newline out)) /\
       List.length (Str.split line) = 8%nat /\
       nth 3 (Str.split line) EmptyString <> "Joining"%string /\
       Str.long (last (Str.split line) EmptyString) = Some t) /\
  (NoDup [10; 20; 30] <-> NoDup (listed_tokens out)).
Proof.
  apply (ring_tokens_ascending (Sample.calm Sample.ring_out) None None []
           [Log RingTokensFound; Wait (mkCommandResult 0 "nodetool ring") 0;
            Spawn (mkCommandResult 0 "nodetool ring"); Log RunningRing]
           [10; 20; 30] None).
  reflexivity.
Defined.

(** ** The executor *)

Lemma every_state_nil (P : log -> Prop) : P [] -> every_state P [].
Proof.
  intros H pre post E. symmetry in E. apply app_eq_nil in E as [_ ->]. exact H.
Qed.

Lemma every_state_cons (P : log -> Prop) (e : event) (l : log) :
  P (e :: l) -> every_state P l -> every_state P (e :: l).
Proof.
  intros He Hl pre [| e' post] E; simpl in E.
  - subst pre. exact He.
  - injection E as _ E. exact (Hl pre post E).
Qed.

Lemma every_state_here (P : log -> Prop) (l : log) : every_state P l -> P l.
Proof. intros H. exact (H l [] eq_refl). Qed.

Lemma every_state_tail (P : log -> Prop) (e : event) (l : log) :
  every_state P (e :: l) -> every_state P l.
Proof. intros H pre post E. apply (H pre (e :: post)). now rewrite E. Qed.

Lemma every_state_impl (P Q : log -> Prop) (l : log) :
  (forall pre, P pre -> Q pre) -> every_state P l -> every_state Q l.
Proof. intros H Hl pre post E. exact (H pre (Hl pre post E)). Qed.

(** *** Processes, one by one *)

Lemma same_handle_refl (h : CommandResult) : same_handle h h = true.
Proof. unfold same_handle. now rewrite Nat.eqb_refl, String.eqb_refl. Qed.

Lemma same_handle_eq (a b : CommandResult) : same_handle a b = true -> a = b.
Proof.
  destruct a as [pa ca], b as [pb cb]. unfold same_handle. simpl.
  intros H. apply andb_true_iff in H as [Hp Hc].
  apply Nat.eqb_eq in Hp. apply String.eqb_eq in Hc. now subst.
Qed.

Lemma without_head (h : CommandResult) (hs : list CommandResult) :
  without h (h :: hs) = hs.
Proof. simpl. now rewrite same_handle_refl. Qed.

Lemma without_length (h : CommandResult) (hs : list CommandResult) :
  (List.length (without h hs) <= List.length hs)%nat.
Proof.
  induction hs as [| x rest IH]; simpl; [lia |].
  destruct (same_handle h x); simpl; lia.
Qed.

Lemma without_filter (h x : CommandResult) (hs : list CommandResult) :
  List.length (filter (same_handle h) (without x hs))
  = if same_handle h x then Nat.pred (List.length (filter (same_handle h) hs))
    else List.length (filter (same_handle h) hs).
Proof.
  induction hs as [| y rest IH]; simpl.
  - now destruct (same_handle h x).
  - destruct (same_handle x y) eqn:Exy.
    + apply same_handle_eq in Exy. subst y.
      destruct (same_handle h x); reflexivity.
    + simpl. destruct (same_handle h y) eqn:Ehy; simpl.
      * rewrite IH. destruct (same_handle h x) eqn:Ehx; [| reflexivity].
        apply same_handle_eq in Ehx, Ehy. subst x y.
        now rewrite same_handle_refl in Exy.
      * exact IH.
Qed.

Lemma filter_member (h : CommandResult) (hs : list CommandResult) :
  In h hs -> (1 <= List.length (filter (same_handle h) hs))%nat.
Proof.
  induction hs as [| x rest IH]; simpl; [contradiction |].
  intros [-> | Hin].
  - rewrite same_handle_refl. simpl. lia.
  - destruct (same_handle h x); simpl; [lia | now apply IH].
Qed.

(** In a log whose states are all in order a process is spawned at most
    once, and its waits and its presence in flight make up its spawns. *)
Lemma orderly_accounts (l : log) :
  every_state orderly l ->
  forall h,
    (waits h l + in_flight_of h l = launches h l)%nat /\
    (launches h l <= 1)%nat /\
    ((1 <= launches h l)%nat -> (proc h < spawned l)%nat).
Proof.
  induction l as [| e l IH]; intros Hl h.
  - unfold waits, launches, in_flight_of, count. simpl. lia.
  - pose proof (every_state_here _ _ Hl) as He.
    destruct (IH (every_state_tail _ _ _ Hl) h) as (A & B & C).
    unfold waits, launches, in_flight_of, count, spawned in *.
    destruct e as [h0 | h0 rc | m |]; cbn [filter is_spawn_at is_wait_at is_spawn running] in *.
    + destruct He as [Hp _]. unfold spawned in Hp.
      rewrite filter_app, length_app. cbn [filter].
      destruct (same_handle h h0) eqn:E; cbn [List.length].
      * apply same_handle_eq in E. subst h0.
        assert (List.length (filter (is_spawn_at h) l) = 0%nat) by lia.
        lia.
      * lia.
    + rewrite without_filter.
      destruct (same_handle h h0) eqn:E; cbn [List.length].
      * apply same_handle_eq in E. subst h0.
        apply filter_member in He. lia.
      * lia.
    + destruct m; cbn [running]; lia.
    + lia.
Qed.

(** *** States kept in order *)

Lemma kept_still (c : Z) (e : event) (l : log) :
  orderly (e :: l) ->
  match e with
  | Spawn _ => False
  | Log (Step _ _ _ _) => False
  | _ => True
  end ->
  every_state (kept c) l -> every_state (kept c) (e :: l).
Proof.
  intros Ho He Hl. apply every_state_cons; [| exact Hl].
  destruct (every_state_here _ _ Hl) as [_ Hs].
  split; [exact Ho |]. intros Hc. destruct (Hs Hc) as [Hb _].
  split.
  - destruct e as [h | h rc | m |]; try contradiction; cbn [running];
      [pose proof (without_length h (running l)); lia | | exact Hb].
    destruct m; try contradiction; exact Hb.
  - destruct e as [h | h rc | m |]; trivial. destruct m; trivial; contradiction.
Qed.

Lemma kept_quiet (c : Z) (e : event) (l : log) :
  quiet e -> every_state (kept c) l -> every_state (kept c) (e :: l).
Proof.
  intros Hq. apply kept_still.
  - destruct e as [h | h rc | m |]; try contradiction; [| exact I].
    destruct m; try contradiction; exact I.
  - destruct e as [h | h rc | m |]; try contradiction; [| exact I].
    destruct m; try contradiction; exact I.
Qed.

Lemma kept_spawn (c : Z) (h : CommandResult) (l : log) :
  orderly (Spawn h :: l) ->
  (1 <= c -> Z.of_nat (List.length (running l)) + 1 <= c) ->
  every_state (kept c) l -> every_state (kept c) (Spawn h :: l).
Proof.
  intros Ho Hb Hl. apply every_state_cons; [| exact Hl].
  split; [exact Ho |]. intros Hc. split; [| exact I].
  cbn [running]. rewrite length_app. simpl. specialize (Hb Hc). lia.
Qed.

(** A state reached by an event that leaves the processes in flight as
    they are. *)
Ltac quiet_event := apply kept_quiet; [exact I |].

Section Executor.

Variable world : World.
Variable NODETOOL : option string.

(** *** The loops, one turn at a time *)

Lemma collect_pass_cons (h : CommandResult) (rest pending : list CommandResult)
    (l : log) :
  collect_pass world (h :: rest) pending l =
  let o := world l h in
  let l1 := Wait h (returncode o) :: l in
  if returncode o =? 0 then collect_pass world rest pending l1
  else
    let l2 := Log (Retrying (cmd h)) :: Log (FailedStderr (stderr o))
              :: Log (Failed (cmd h)) :: l1 in
    let h' := mkCommandResult (spawned l2) (cmd h) in
    collect_pass world rest (pending ++ [h']) (Spawn h' :: l2).
Proof.
  cbn [collect_pass]. unfold bind at 1. unfold result at 1. cbv zeta.
  destruct (returncode (world l h) =? 0); reflexivity.
Qed.

Lemma collect_pass_returns (pending2 : list CommandResult) :
  forall pending l, exists pending' l',
    collect_pass world pending2 pending l = (Ret pending', l').
Proof.
  induction pending2 as [| h rest IH]; intros pending l.
  - simpl. unfold ret. eauto.
  - rewrite collect_pass_cons. cbv zeta.
    destruct (returncode (world l h) =? 0); apply IH.
Qed.

Lemma collect_results_nil (fuel : nat) (l : log) :
  collect_results world fuel [] l = (Ret tt, l).
Proof. destruct fuel; reflexivity. Qed.

Lemma collect_results_cons (fuel : nat) (h : CommandResult)
    (p : list CommandResult) (l : log) :
  collect_results world (S fuel) (h :: p) l =
  match collect_pass world (h :: p) []
          (Log (Collecting (List.length (h :: p))) :: l) with
  | (Ret pending', l1) => collect_results world fuel pending' l1
  | (Exc e, l1) => (Exc e, l1)
  | (OutOfFuel, l1) => (OutOfFuel, l1)
  end.
Proof. reflexivity. Qed.

(** *** The processes in flight are the pending ones *)

Variable c : Z.

Lemma collect_pass_kept (pending2 : list CommandResult) :
  forall pending l pending' l',
    collect_pass world pending2 pending l = (Ret pending', l') ->
    every_state (kept c) l ->
    running l = (pending2 ++ pending)%list ->
    every_state (kept c) l' /\
    running l' = pending' /\
    steps_in_range l' = steps_in_range l.
Proof.
  induction pending2 as [| h rest IH]; intros pending l pending' l' E Hl Hr.
  - simpl in E. injection E as <- <-. auto.
  - rewrite collect_pass_cons in E. cbv zeta in E.
    set (o := world l h) in *.
    assert (H1 : every_state (kept c) (Wait h (returncode o) :: l)).
    { apply kept_still; [| exact I | exact Hl].
      cbn [orderly]. rewrite Hr. apply in_eq. }
    assert (R1 : running (Wait h (returncode o) :: l) = (rest ++ pending)%list).
    { cbn [running]. rewrite Hr. apply without_head. }
    destruct (Z.eqb_spec (returncode o) 0) as [Hrc | Hrc].
    + exact (IH pending _ pending' l' E H1 R1).
    + eapply IH in E.
      * destruct E as (G1 & G2 & G3).
        split; [exact G1 |]. split; [exact G2 |]. rewrite G3. reflexivity.
      * apply kept_spawn.
        -- split; reflexivity.
        -- intros Hc. change (running (Log ?m :: ?k)) with (running k).
           destruct (every_state_here _ _ Hl) as [_ Hs].
           destruct (Hs Hc) as [Hb _]. rewrite Hr in Hb.
           change (running (Log ?m :: ?k)) with (running k).
           change (running (Log ?m :: ?k)) with (running k).
           rewrite R1. cbn [app List.length] in Hb. lia.
        -- apply kept_still; [| exact I |].
           ++ cbn [orderly]. exists h, (returncode o), (stderr o), l.
              split; [reflexivity |]. split; [reflexivity | exact Hrc].
           ++ do 2 quiet_event. exact H1.
      * cbn [running]. cbn [running] in R1. rewrite R1. now rewrite app_assoc.
Qed.

Lemma collect_results_kept (fuel : nat) :
  forall pending l,
    every_state (kept c) l ->
    running l = pending ->
    every_state (kept c) (snd (collect_results world fuel pending l)) /\
    steps_in_range (snd (collect_results world fuel pending l))
    = steps_in_range l /\
    (fst (collect_results world fuel pending l) = Ret tt ->
     running (snd (collect_results world fuel pending l)) = []).
Proof.
  induction fuel as [| fuel IH]; intros [| h p] l Hl Hr;
    try (rewrite collect_results_nil; simpl; auto).
  - simpl. split; [exact Hl |]. split; [reflexivity | discriminate].
  - rewrite collect_results_cons.
    destruct (collect_pass_returns (h :: p) []
                (Log (Collecting (List.length (h :: p))) :: l))
      as (pending' & l1 & E).
    rewrite E.
    apply collect_pass_kept in E as (H1 & H2 & H3).
    + destruct (IH pending' l1 H1 H2) as (G1 & G2 & G3).
      split; [exact G1 |]. split; [| exact G3].
      rewrite G2, H3. reflexivity.
    + quiet_event. exact Hl.
    + cbn [running]. rewrite Hr. now rewrite app_nil_r.
Qed.

Lemma mod_succ (s p : Z) :
  1 <= c -> s mod c = p -> (s + 1) mod c = if p + 1 =? c then 0 else p + 1.
Proof.
  intros Hc Hp. pose proof (Z.mod_pos_bound s c ltac:(lia)) as Hb.
  pose proof (Z.div_mod s c ltac:(lia)) as Hd. rewrite Hp in *.
  destruct (Z.eqb_spec (p + 1) c) as [E | E]; symmetry.
  - apply (Z.mod_unique _ _ (s / c + 1)); lia.
  - apply (Z.mod_unique _ _ (s / c)); lia.
Qed.

Variables (keyspace : string) (columnfamily host : option string).
Variables (all_dcs : bool) (fuel : nat).

Local Abbreviation dispatch' :=
  (dispatch world NODETOOL keyspace columnfamily host c all_dcs fuel).

Lemma dispatch_stop (n : nat) (fmt : Z -> string) (g : SubRange.state)
    (crs : list CommandResult) (p steps : Z) (l : log) :
  SubRange.next g = StopIteration ->
  dispatch' n fmt g crs p steps l = collect_results world fuel crs l.
Proof. intros H. destruct n; simpl; rewrite H; reflexivity. Qed.

Lemma dispatch_raise (n : nat) (fmt : Z -> string) (g : SubRange.state)
    (crs : list CommandResult) (p steps : Z) (l : log) (e : exn) :
  SubRange.next g = Raise e ->
  dispatch' n fmt g crs p steps l = (Exc e, l).
Proof. intros H. destruct n; simpl; rewrite H; reflexivity. Qed.

Lemma dispatch_no_fuel (fmt : Z -> string) (g g' : SubRange.state) (ab : Z * Z)
    (crs : list CommandResult) (p steps : Z) (l : log) :
  SubRange.next g = Yield ab g' ->
  dispatch' 0 fmt g crs p steps l = (OutOfFuel, l).
Proof. intros H. simpl. rewrite H. destruct ab. reflexivity. Qed.

Lemma dispatch_yield (n : nat) (fmt : Z -> string) (g g' : SubRange.state)
    (a b : Z) (crs : list CommandResult) (p steps : Z) (l : log) :
  SubRange.next g = Yield (a, b) g' ->
  dispatch' (S n) fmt g crs p steps l =
  let l1 := Log (Step steps (fmt a) (fmt b) keyspace) :: l in
  let h := mkCommandResult (spawned l1)
             (repair_range_cmd NODETOOL keyspace (fmt a) (fmt b)
                               columnfamily host all_dcs) in
  let l2 := Spawn h :: l1 in
  if p + 1 =? c then
    match collect_results world fuel (crs ++ [h]) l2 with
    | (Ret _, l3) => dispatch' n fmt g' [] 0 (steps - 1) l3
    | (Exc e, l3) => (Exc e, l3)
    | (OutOfFuel, l3) => (OutOfFuel, l3)
    end
  else dispatch' n fmt g' (crs ++ [h]) (p + 1) (steps - 1) l2.
Proof.
  intros H. cbn [dispatch]. rewrite H. cbv zeta.
  unfold bind at 1, logging at 1, emit at 1.
  unfold bind at 1, repair_range at 1, run_command at 1.
  destruct (p + 1 =? c); reflexivity.
Qed.

Lemma dispatch_kept (n : nat) :
  forall fmt g crs p steps l r l',
    dispatch' n fmt g crs p steps l = (r, l') ->
    every_state (kept c) l ->
    running l = crs ->
    (1 <= c ->
     Z.of_nat (List.length crs) = p /\ p < c /\ steps_in_range l mod c = p) ->
    every_state (kept c) l' /\ (r = Ret tt -> running l' = []).
Proof.
  induction n as [| n IH]; intros fmt g crs p steps l r l' E Hl Hcrs Hp;
    destruct (SubRange.next g) as [[a b] g' | | e] eqn:Hg;
    try (rewrite (dispatch_stop _ _ _ _ _ _ _ Hg) in E;
         destruct (collect_results_kept fuel crs l Hl Hcrs)
           as (G1 & _ & G3);
         rewrite E in G1, G3; simpl in G1, G3; split; [exact G1 |];
         intros ->; now apply G3);
    try (rewrite (dispatch_raise _ _ _ _ _ _ _ _ Hg) in E;
         injection E as <- <-; split; [exact Hl | discriminate]).
  - rewrite (dispatch_no_fuel _ _ _ _ _ _ _ _ Hg) in E.
    injection E as <- <-. split; [exact Hl | discriminate].
  - rewrite (dispatch_yield _ _ _ _ _ _ _ _ _ _ Hg) in E. cbv zeta in E.
    set (l1 := Log (Step steps (fmt a) (fmt b) keyspace) :: l) in *.
    set (h := mkCommandResult (spawned l1) _) in *.
    assert (H1 : every_state (kept c) l1).
    { apply every_state_cons; [| exact Hl].
      split; [exact I |]. intros Hc. destruct (Hp Hc) as (P1 & P2 & P3).
      split; cbn [running]; rewrite Hcrs; lia. }
    assert (H2 : every_state (kept c) (Spawn h :: l1)).
    { apply kept_spawn; [split; [reflexivity | exact I] | | exact H1].
      intros Hc. destruct (Hp Hc) as (P1 & P2 & P3).
      subst l1. cbn [running]. rewrite Hcrs. lia. }
    assert (R2 : running (Spawn h :: l1) = (crs ++ [h])%list).
    { subst l1. cbn [running]. now rewrite Hcrs. }
    assert (Hs : 1 <= c ->
                 steps_in_range (Spawn h :: l1) mod c
                 = if p + 1 =? c then 0 else p + 1).
    { intros Hc. destruct (Hp Hc) as (P1 & P2 & P3).
      simpl. now apply mod_succ. }
    destruct (Z.eqb_spec (p + 1) c) as [Hfull | Hroom].
    + destruct (collect_results_kept fuel (crs ++ [h]) (Spawn h :: l1) H2 R2)
        as (G1 & G2 & G3).
      destruct (collect_results world fuel (crs ++ [h]) (Spawn h :: l1))
        as [[[] | e | ] l3]; simpl in G1, G2, G3.
      * apply (IH _ _ _ _ _ _ _ _ E G1); [now apply G3 |].
        intros Hc. split; [reflexivity |]. split; [lia |].
        rewrite G2. now apply Hs.
      * injection E as <- <-. split; [exact G1 | discriminate].
      * injection E as <- <-. split; [exact G1 | discriminate].
    + apply (IH _ _ _ _ _ _ _ _ E H2 R2).
      intros Hc. destruct (Hp Hc) as (P1 & P2 & P3).
      rewrite length_app. simpl. split; [lia |]. split; [lia |]. now apply Hs.
Qed.

Local Abbreviation repair_token' :=
  (repair_token world NODETOOL keyspace columnfamily host c all_dcs fuel).
Local Abbreviation repair_tokens' :=
  (repair_tokens world NODETOOL keyspace columnfamily host c all_dcs fuel).
Local Abbreviation repair' :=
  (repair world NODETOOL keyspace columnfamily host c all_dcs fuel).

Lemma repair_token_unfold (start_steps : Z) (ring_tokens : list Z)
    (total num : nat) (host_token : Z) (l : log) :
  repair_token' start_steps ring_tokens total num host_token l =
  match get_range_termination host_token ring_tokens with
  | None => (Exc IndexError, l)
  | Some range_termination =>
      let formatter :=
        if is_murmur_ring ring_tokens then format_murmur else format_md5 in
      dispatch' fuel formatter
        (SubRange.Entry host_token range_termination start_steps) [] 0
        start_steps
        (Log (RepairingRange (num + 1) total (formatter host_token)
                (formatter range_termination) start_steps c keyspace) :: l)
  end.
Proof.
  unfold repair_token.
  destruct (get_range_termination host_token ring_tokens); reflexivity.
Qed.

Lemma repair_tokens_cons (start_steps : Z) (ring_tokens : list Z)
    (total num : nat) (host_token : Z) (rest : list Z) (l : log) :
  repair_tokens' start_steps ring_tokens total num (host_token :: rest) l =
  match repair_token' start_steps ring_tokens total num host_token l with
  | (Ret _, l1) => repair_tokens' start_steps ring_tokens total (S num) rest l1
  | (Exc e, l1) => (Exc e, l1)
  | (OutOfFuel, l1) => (OutOfFuel, l1)
  end.
Proof. reflexivity. Qed.

Lemma repair_token_kept (start_steps : Z) (ring_tokens : list Z)
    (total num : nat) (host_token : Z) (l : log) (r : res unit) (l' : log) :
  repair_token' start_steps ring_tokens total num host_token l = (r, l') ->
  every_state (kept c) l -> running l = [] ->
  every_state (kept c) l' /\ (r = Ret tt -> running l' = []).
Proof.
  rewrite repair_token_unfold. intros E Hl H0.
  destruct (get_range_termination host_token ring_tokens) as [t |].
  - cbv zeta in E. apply dispatch_kept in E; trivial.
    + apply kept_still; [exact H0 | exact I | exact Hl].
    + intros Hc. simpl. rewrite Z.mod_0_l by lia. lia.
  - injection E as <- <-. split; [exact Hl | discriminate].
Qed.

Lemma repair_tokens_kept (start_steps : Z) (ring_tokens : list Z)
    (total : nat) (host_token_list : list Z) :
  forall num l r l',
    repair_tokens' start_steps ring_tokens total num host_token_list l = (r, l') ->
    every_state (kept c) l -> running l = [] ->
    every_state (kept c) l' /\ (r = Ret tt -> running l' = []).
Proof.
  induction host_token_list as [| t rest IH]; intros num l r l' E Hl H0.
  - injection E as _ <-. auto.
  - rewrite repair_tokens_cons in E.
    destruct (repair_token' start_steps ring_tokens total num t l)
      as [[[] | e |] l1] eqn:Et;
      apply repair_token_kept in Et as [G1 G2]; trivial.
    + apply (IH _ _ _ _ E G1). now apply G2.
    + injection E as <- <-. split; [exact G1 | discriminate].
    + injection E as <- <-. split; [exact G1 | discriminate].
Qed.

(** [get_host_tokens], step by step. *)
Lemma get_host_tokens_unfold (l : log) :
  get_host_tokens world NODETOOL host l =
  let h := info_proc NODETOOL host l in
  let o := host_listing world NODETOOL host l in
  let l1 := Wait h (returncode o) :: Spawn h :: l in
  if (negb (returncode o =? 0) || Str.not_found "Token" (stdout o))%bool then
    (Ret (false, [], Some (stderr o)), Log (HostStdout (stdout o)) :: l1)
  else
    match host_rows (Str.split_on Str.newline (stdout o)) [] with
    | inl e => (Exc e, Log HostTokensFound :: l1)
    | inr token_list => (Ret (true, token_list, None), Log HostTokensFound :: l1)
    end.
Proof.
  unfold get_host_tokens, bind, logging, emit, run_command, result, ret,
    host_listing, info_proc. simpl.
  destruct (negb (returncode _ =? 0) || Str.not_found "Token" _)%bool; simpl;
    [reflexivity |].
  destruct (host_rows _ []); reflexivity.
Qed.

(** [repair], step by step. *)
Lemma repair_unfold (start_steps : Z) (l : log) :
  repair' start_steps l =
  match get_ring_tokens world NODETOOL host l with
  | (Ret (true, ring_tokens, _), l1) =>
      match get_host_tokens world NODETOOL host l1 with
      | (Ret (true, host_token_list, _), l2) =>
          match repair_tokens' start_steps ring_tokens
                  (List.length host_token_list) 0%nat host_token_list l2 with
          | (Ret _, l3) => (Ret true, l3)
          | (Exc e, l3) => (Exc e, l3)
          | (OutOfFuel, l3) => (OutOfFuel, l3)
          end
      | (Ret (false, _, error), l2) =>
          (Ret false, Log (ErrorHost (Str.get error)) :: l2)
      | (Exc e, l2) => (Exc e, l2)
      | (OutOfFuel, l2) => (OutOfFuel, l2)
      end
  | (Ret (false, _, error), l1) =>
      (Ret false, Log (ErrorRing (Str.get error)) :: l1)
  | (Exc e, l1) => (Exc e, l1)
  | (OutOfFuel, l1) => (OutOfFuel, l1)
  end.
Proof.
  unfold repair, bind.
  destruct (get_ring_tokens world NODETOOL host l)
    as [[[[[] rt] er] | e |] l1]; simpl; try reflexivity.
  destruct (get_host_tokens world NODETOOL host l1)
    as [[[[[] ht] eh] | e |] l2]; simpl; reflexivity.
Qed.

(** A listing is spawned with nothing in flight, and waited for at once. *)
Lemma listing_kept (h : CommandResult) (rc : Z) (l : log) :
  every_state (kept c) l -> running l = [] -> orderly (Spawn h :: l) ->
  every_state (kept c) (Wait h rc :: Spawn h :: l) /\
  running (Wait h rc :: Spawn h :: l) = [].
Proof.
  intros Hl H0 Ho. split.
  - apply kept_still; [| exact I |].
    + cbn [orderly running]. rewrite H0. apply in_eq.
    + apply kept_spawn; [exact Ho | rewrite H0; simpl; lia | exact Hl].
  - cbn [running]. rewrite H0. apply without_head.
Qed.

Lemma repair_kept (start_steps : Z) (l : log) :
  every_state (kept c) l -> running l = [] ->
  every_state (kept c) (snd (repair' start_steps l)) /\
  (forall b, fst (repair' start_steps l) = Ret b ->
             running (snd (repair' start_steps l)) = []).
Proof.
  intros Hl H0. rewrite repair_unfold, get_ring_tokens_unfold. cbv zeta.
  set (h := ring_proc NODETOOL host l).
  set (o := ring_listing world NODETOOL host l).
  destruct (listing_kept h (returncode o) (Log RunningRing :: l))
    as [H1 R1]; [quiet_event; exact Hl | exact H0 | split; [reflexivity | exact I] |].
  destruct (returncode o =? 0).
  2:{ simpl. split; [quiet_event; exact H1 | intros _ _; exact R1]. }
  assert (H2 : every_state (kept c)
                 (Log RingTokensFound :: Wait h (returncode o) :: Spawn h
                  :: Log RunningRing :: l)).
  { quiet_event. exact H1. }
  destruct (ring_rows _ []) as [e | ring_tokens];
    [split; [exact H2 | discriminate] |].
  set (l1 := Log RingTokensFound :: _) in *.
  rewrite get_host_tokens_unfold. cbv zeta.
  set (h2 := info_proc NODETOOL host l1).
  set (o2 := host_listing world NODETOOL host l1).
  destruct (listing_kept h2 (returncode o2) l1)
    as [H3 R3]; [exact H2 | exact R1 | split; [reflexivity | exact I] |].
  destruct (negb (returncode o2 =? 0) || Str.not_found "Token" (stdout o2))%bool.
  { simpl. split; [do 2 quiet_event; exact H3 | intros _ _; exact R3]. }
  destruct (host_rows _ []) as [e | host_token_list].
  { simpl. split; [quiet_event; exact H3 | discriminate]. }
  set (l2 := Log HostTokensFound :: _).
  assert (H4 : every_state (kept c) l2).
  { quiet_event. exact H3. }
  destruct (repair_tokens' start_steps (sorted ring_tokens)
              (List.length host_token_list) 0%nat host_token_list l2)
    as [r l3] eqn:E.
  apply repair_tokens_kept in E as [G1 G2]; trivial.
  destruct r as [[] | e |]; simpl; (split; [exact G1 |]);
    [intros _ _; now apply G2 | discriminate | discriminate].
Qed.

(** The empty log is in order. *)
Lemma kept_nil : every_state (kept c) [].
Proof.
  apply every_state_nil. split; [exact I |]. intros Hc. split; simpl; [lia | exact I].
Qed.

(** C9, amended.  With a concurrency [c] of at least 1, in every state the
    run of [repair] goes through, at most [c] processes are in flight
    (spawned and not yet waited for, process by process); every spawn
    makes a new process and every wait is for a process in flight; when the
    operation of a sub-range is about to be dispatched, the processes in
    flight are as many as the operations dispatched since the last full
    batch of [c] (the rank of the sub-range in its owned range modulo [c]:
    none before the [(c+1)]-th, every process of the batch and of its
    retries having been waited for); when an owned range is begun no process
    is in flight; and none is when [repair] returns. *)
Theorem dispatch_bounded (start_steps : Z) :
  1 <= c ->
  (forall pre post,
     snd (repair' start_steps []) = (post ++ pre)%list ->
     Z.of_nat (List.length (running pre)) <= c /\
     (forall h rest, pre = Spawn h :: rest -> proc h = spawned rest) /\
     (forall h rc rest, pre = Wait h rc :: rest -> In h (running rest)) /\
     (forall steps start stop ks rest,
        pre = Log (Step steps start stop ks) :: rest ->
        Z.of_nat (List.length (running rest)) = steps_in_range rest mod c) /\
     (forall count total token termination steps conc ks rest,
        pre = Log (RepairingRange count total token termination steps conc ks)
              :: rest ->
        running rest = [])) /\
  (forall b, fst (repair' start_steps []) = Ret b ->
             running (snd (repair' start_steps [])) = []).
Proof.
  intros Hc.
  destruct (repair_kept start_steps [] kept_nil eq_refl) as [H Hend].
  split; [| exact Hend].
  intros pre post E. destruct (H pre post E) as [Ho Hs].
  destruct (Hs Hc) as [Hb Hm]. split; [exact Hb |].
  split; [| split; [| split]].
  - intros h rest ->. exact (proj1 Ho).
  - intros h rc rest ->. exact Ho.
  - intros steps start stop ks rest ->. exact Hm.
  - intros count total token termination steps conc ks rest ->. exact Ho.
Qed.

End Executor.

(** C9 fails as stated: the concurrency is not validated, and with a
    concurrency of 0, in the run of [repair] for the owned range from 20 to
    30 in 5 steps, the state reached by the fifth spawn (the log less its
    last six events, the [Collecting] message and five waits) has the five
    operations of the range in flight at once, the processes 2 to 6. *)
Lemma dispatch_unbounded :
  fst Sample.unbounded_run = Ret true /\
  snd Sample.unbounded_run
  = (firstn 6 (snd Sample.unbounded_run) ++ skipn 6 (snd Sample.unbounded_run))%list /\
  map proc (running (skipn 6 (snd Sample.unbounded_run))) = [2; 3; 4; 5; 6]%nat /\
  map cmd (running (skipn 6 (snd Sample.unbounded_run)))
  = planned None "ks" None None false 10 5 [10; 20; 30] [20] /\
  ~ Z.of_nat (List.length (running (skipn 6 (snd Sample.unbounded_run)))) <= 0.
Proof.
  split; [vm_compute; reflexivity |].
  split; [symmetry; apply firstn_skipn |].
  split; [vm_compute; reflexivity |]. split; [vm_compute; reflexivity |].
  vm_compute. intros H. apply H. reflexivity.
Qed.

Lemma flaky_run_step :
  skipn 27 (snd Sample.flaky_run)
  = Log (Step 4 (format_md5 22) (format_md5 24) "ks")
    :: skipn 28 (snd Sample.flaky_run).
Proof. vm_compute. reflexivity. Defined.

Lemma flaky_run_range :
  skipn 30 (snd Sample.flaky_run)
  = Log (RepairingRange 1 1 (format_md5 20) (format_md5 30) 5 2 "ks")
    :: skipn 31 (snd Sample.flaky_run).
Proof. vm_compute. reflexivity. Defined.

Lemma flaky_run_returns : fst Sample.flaky_run = Ret true.
Proof. vm_compute. reflexivity. Defined.

Lemma dispatch_bounded_witness :
  Z.of_nat (List.length (running (skipn 27 (snd Sample.flaky_run)))) <= 2 /\
  Z.of_nat (List.length (running (skipn 28 (snd Sample.flaky_run))))
  = steps_in_range (skipn 28 (snd Sample.flaky_run)) mod 2 /\
  running (skipn 31 (snd Sample.flaky_run)) = [] /\
  running (snd Sample.flaky_run) = [].
Proof.
  destruct (dispatch_bounded Sample.flaky None 2 "ks" None None false 10 5
              ltac:(lia)) as [H Hend].
  destruct (H (skipn 27 (snd Sample.flaky_run))
              (firstn 27 (snd Sample.flaky_run))
              (eq_sym (firstn_skipn 27 (snd Sample.flaky_run))))
    as (A & _ & _ & B & _).
  destruct (H (skipn 30 (snd Sample.flaky_run))
              (firstn 30 (snd Sample.flaky_run))
              (eq_sym (firstn_skipn 30 (snd Sample.flaky_run))))
    as (_ & _ & _ & _ & C).
  split; [exact A |]. split; [exact (B _ _ _ _ _ flaky_run_step) |].
  split; [exact (C _ _ _ _ _ _ _ _ flaky_run_range) |].
  exact (Hend true flaky_run_returns).
Defined.

(** ** Discovery failures and exit codes *)




Section Grows.

Variable world : World.
Variable NODETOOL : option string.
Variables (keyspace : string) (columnfamily host : option string).
Variables (repair_concurrency : Z) (all_dcs : bool) (fuel : nat).






End Grows.

(** [main] with a keyspace: logging is set up, then the exit code follows
    the status of [repair]. *)
Lemma main_unfold (world : World) (LOG_LEVEL : option string) (fuel : nat)
    (o : options) (l : log) :
  Str.truthy (opt_keyspace o) = true ->
  main world LOG_LEVEL fuel o l =
  if logging_configured LOG_LEVEL o then
    match repair world (opt_nodetool o) (Str.get (opt_keyspace o)) (opt_cf o)
            (opt_host o) (opt_repair_concurrency o) (opt_all_dcs o) fuel
            (opt_steps o) l with
    | (Ret true, l') => (Ret 0, l')
    | (Ret false, l') => (Ret 2, l')
    | (Exc e, l') => (Exc e, l')
    | (OutOfFuel, l') => (OutOfFuel, l')
    end
  else (Exc ValueError, l).
Proof.
  intros H. unfold main, logging_configured. rewrite H. cbn [negb].
  unfold bind at 1. unfold setup_logging.
  destruct (opt_verbose o); cbn [orb].
  - cbn. unfold bind.
    destruct (repair _ _ _ _ _ _ _ _ _ l) as [[[] | e |] l']; reflexivity.
  - cbn [Str.truthy].
    destruct (known_level (getenv LOG_LEVEL "INFO")); [| reflexivity].
    unfold ret at 1. unfold bind.
    destruct (repair _ _ _ _ _ _ _ _ _ l) as [[[] | e |] l']; reflexivity.
Qed.



(** ** Retries *)

Lemma ledger_refl (c : string) (l : log) : ledger c l l 0 0.
Proof. unfold ledger. lia. Qed.

Lemma ledger_trans (c : string) (l l1 l2 : log) (w1 w2 s1 s2 : nat) :
  ledger c l l1 w1 s1 -> ledger c l1 l2 w2 s2 ->
  ledger c l l2 (w1 + w2) (s1 + s2).
Proof. unfold ledger. lia. Qed.

Lemma count_cmd_app (c : string) (hs hs' : list CommandResult) :
  count_cmd c (hs ++ hs') = (count_cmd c hs + count_cmd c hs')%nat.
Proof. unfold count_cmd. now rewrite filter_app, length_app. Qed.

Lemma occurrences_app (c : string) (cs cs' : list string) :
  occurrences c (cs ++ cs') = (occurrences c cs + occurrences c cs')%nat.
Proof. unfold occurrences. now rewrite filter_app, length_app. Qed.

(** Unfold the counts over the events put on the log and decide the tests
    on the command line and on the exit status. *)
Ltac tally :=
  unfold ledger, successes, failures, spawns, retries, count, count_cmd,
    occurrences in *;
  cbn [filter is_wait_of is_spawn_of is_retry_of cmd List.length map app] in *;
  repeat match goal with
    | H : ?b = _ |- context [?b] => rewrite H
    | H : ?b = _, H' : context [?b] |- _ => rewrite H in H'
    end;
  cbn [filter andb negb Bool.eqb List.length app] in *.

Section Retry.

Variable world : World.
Variable NODETOOL : option string.
Variable c : string.

Lemma collect_pass_ledger (pending2 : list CommandResult) :
  forall pending l pending' l',
    collect_pass world pending2 pending l = (Ret pending', l') ->
    (successes c l' + count_cmd c pending'
     = successes c l + count_cmd c pending2 + count_cmd c pending)%nat /\
    (failures c l' + count_cmd c pending
     = failures c l + count_cmd c pending')%nat /\
    (spawns c l' + count_cmd c pending = spawns c l + count_cmd c pending')%nat /\
    (retries c l' + count_cmd c pending = retries c l + count_cmd c pending')%nat.
Proof.
  induction pending2 as [| h rest IH]; intros pending l pending' l' E.
  - simpl in E. injection E as <- <-. unfold count_cmd. simpl. lia.
  - rewrite collect_pass_cons in E. cbv zeta in E.
    destruct (returncode (world l h) =? 0) eqn:Hrc;
      apply IH in E; try rewrite count_cmd_app in E;
      destruct (String.eqb (cmd h) c) eqn:Hc; tally; lia.
Qed.

Lemma collect_results_ledger (fuel : nat) :
  forall pending l l',
    collect_results world fuel pending l = (Ret tt, l') ->
    ledger c l l' (count_cmd c pending) 0.
Proof.
  induction fuel as [| fuel IH]; intros [| h p] l l' E;
    try (rewrite collect_results_nil in E; injection E as <-;
         apply ledger_refl).
  - discriminate E.
  - rewrite collect_results_cons in E.
    destruct (collect_pass_returns world (h :: p) []
                (Log (Collecting (List.length (h :: p))) :: l))
      as (pending' & l1 & E1).
    rewrite E1 in E. apply IH in E. apply collect_pass_ledger in E1.
    set (k := count_cmd c (h :: p)) in *. tally. lia.
Qed.

Variables (keyspace : string) (columnfamily host : option string).
Variables (repair_concurrency : Z) (all_dcs : bool) (fuel : nat).

(** The command line dispatched for a pair of the partition. *)
Local Abbreviation cmd_of fmt :=
  (fun p : Z * Z =>
     repair_range_cmd NODETOOL keyspace (fmt (fst p)) (fmt (snd p))
                      columnfamily host all_dcs).

Lemma dispatch_ledger (n : nat) :
  forall fmt g crs p steps l l',
    dispatch world NODETOOL keyspace columnfamily host repair_concurrency
             all_dcs fuel n fmt g crs p steps l = (Ret tt, l') ->
    exists pairs,
      drain SubRange.next n g = (pairs, Exhausted) /\
      ledger c l l'
        (count_cmd c crs + occurrences c (map (cmd_of fmt) pairs))
        (occurrences c (map (cmd_of fmt) pairs)).
Proof.
  induction n as [| n IH]; intros fmt g crs p steps l l' E;
    destruct (SubRange.next g) as [[a b] g' | | e] eqn:Hg;
    try (rewrite dispatch_stop in E by exact Hg;
         exists []; split;
         [now apply drain_stop |];
         apply collect_results_ledger in E; tally; lia);
    try (erewrite dispatch_raise in E by exact Hg;
         discriminate E).
  - erewrite dispatch_no_fuel in E by exact Hg.
    discriminate E.
  - erewrite dispatch_yield in E by exact Hg.
    cbv zeta in E.
    set (l1 := Log (Step steps (fmt a) (fmt b) keyspace) :: l) in *.
    set (h := mkCommandResult (spawned l1) _) in *.
    rewrite drain_S, Hg.
    destruct (p + 1 =? repair_concurrency).
    + destruct (collect_results world fuel (crs ++ [h]) (Spawn h :: l1))
        as [[[] | e |] l3] eqn:Ec; try discriminate E.
      apply collect_results_ledger in Ec. rewrite count_cmd_app in Ec.
      apply IH in E as (pairs & Hd & Hl). rewrite Hd.
      exists ((a, b) :: pairs). split; [reflexivity |].
      subst h l1. cbn [map fst snd].
      destruct (String.eqb (repair_range_cmd NODETOOL keyspace (fmt a) (fmt b)
                              columnfamily host all_dcs) c) eqn:Hc;
        tally; lia.
    + apply IH in E as (pairs & Hd & Hl). rewrite Hd.
      rewrite count_cmd_app in Hl.
      exists ((a, b) :: pairs). split; [reflexivity |].
      subst h l1. cbn [map fst snd].
      destruct (String.eqb (repair_range_cmd NODETOOL keyspace (fmt a) (fmt b)
                              columnfamily host all_dcs) c) eqn:Hc;
        tally; lia.
Qed.

Local Abbreviation planned' :=
  (planned NODETOOL keyspace columnfamily host all_dcs fuel).

Lemma planned_cons (start_steps : Z) (ring_tokens : list Z) (t : Z)
    (rest : list Z) :
  planned' start_steps ring_tokens (t :: rest)
  = (planned' start_steps ring_tokens [t]
     ++ planned' start_steps ring_tokens rest)%list.
Proof. unfold planned. simpl. now rewrite app_nil_r. Qed.

Lemma repair_token_ledger (start_steps : Z) (ring_tokens : list Z)
    (total num : nat) (host_token : Z) (l l' : log) :
  repair_token world NODETOOL keyspace columnfamily host repair_concurrency
               all_dcs fuel start_steps ring_tokens total num host_token l
  = (Ret tt, l') ->
  ledger c l l'
    (occurrences c (planned' start_steps ring_tokens [host_token]))
    (occurrences c (planned' start_steps ring_tokens [host_token])).
Proof.
  rewrite repair_token_unfold. unfold planned. simpl. rewrite app_nil_r.
  destruct (get_range_termination host_token ring_tokens) as [t |];
    [| discriminate].
  cbv zeta. intros E. apply dispatch_ledger in E as (pairs & Hd & Hl).
  unfold get_sub_range_generator. rewrite Hd. simpl fst.
  tally. lia.
Qed.

Lemma repair_tokens_ledger (start_steps : Z) (ring_tokens : list Z)
    (total : nat) (host_token_list : list Z) :
  forall num l l',
    repair_tokens world NODETOOL keyspace columnfamily host repair_concurrency
                  all_dcs fuel start_steps ring_tokens total num
                  host_token_list l
    = (Ret tt, l') ->
    ledger c l l'
      (occurrences c (planned' start_steps ring_tokens host_token_list))
      (occurrences c (planned' start_steps ring_tokens host_token_list)).
Proof.
  induction host_token_list as [| t rest IH]; intros num l l' E.
  - injection E as <-. apply ledger_refl.
  - rewrite repair_tokens_cons in E.
    destruct (repair_token world NODETOOL keyspace columnfamily host
                repair_concurrency all_dcs fuel start_steps ring_tokens total
                num t l) as [[[] | e |] l1] eqn:Et; try discriminate E.
    apply repair_token_ledger in Et. apply IH in E.
    rewrite planned_cons, occurrences_app.
    exact (ledger_trans _ _ _ _ _ _ _ _ Et E).
Qed.

(** When [repair] returns [True] both listings were accepted, and from
    there on every command line is accounted for. *)
Lemma repair_ledger (start_steps : Z) (l l' : log) :
  repair world NODETOOL keyspace columnfamily host repair_concurrency all_dcs
         fuel start_steps l = (Ret true, l') ->
  exists ring_tokens host_token_list er eh l1 l2,
    get_ring_tokens world NODETOOL host l = (Ret (true, ring_tokens, er), l1) /\
    get_host_tokens world NODETOOL host l1
    = (Ret (true, host_token_list, eh), l2) /\
    ledger c l l'
      (occurrences c (ring_cmd NODETOOL host :: info_cmd NODETOOL host
                      :: planned' start_steps ring_tokens host_token_list))
      (occurrences c (ring_cmd NODETOOL host :: info_cmd NODETOOL host
                      :: planned' start_steps ring_tokens host_token_list)).
Proof.
  rewrite repair_unfold.
  destruct (get_ring_tokens world NODETOOL host l)
    as [[[[[] rt] er] | e |] l1] eqn:Er; try discriminate.
  destruct (get_host_tokens world NODETOOL host l1)
    as [[[[[] ht] eh] | e |] l2] eqn:Eh; try discriminate.
  destruct (repair_tokens world NODETOOL keyspace columnfamily host
              repair_concurrency all_dcs fuel start_steps rt (List.length ht)
              0%nat ht l2) as [[[] | e |] l3] eqn:Et; try discriminate.
  intros [= <-]. exists rt, ht, er, eh, l1, l2.
  split; [first [exact Er | reflexivity] |].
  split; [first [exact Eh | reflexivity] |].
  apply repair_tokens_ledger in Et.
  rewrite get_ring_tokens_unfold in Er. cbv zeta in Er.
  destruct (returncode (ring_listing world NODETOOL host l) =? 0) eqn:Hr;
    [| discriminate Er].
  destruct (ring_rows _ []); [discriminate Er |]. injection Er as _ _ <-.
  rewrite get_host_tokens_unfold in Eh. cbv zeta in Eh.
  destruct (returncode (host_listing world NODETOOL host _) =? 0) eqn:Hh;
    [| discriminate Eh].
  simpl negb in Eh. cbn [orb] in Eh.
  destruct (Str.not_found "Token" _); [discriminate Eh |].
  destruct (host_rows _ []); [discriminate Eh |]. injection Eh as _ _ <-.
  unfold ring_proc, info_proc in *.
  destruct (String.eqb (ring_cmd NODETOOL host) c) eqn:H1;
    destruct (String.eqb (info_cmd NODETOOL host) c) eqn:H2;
    tally; lia.
Qed.

(** A command that fails until it has failed [n] times is collected after
    exactly the missing number of retries. *)
Lemma retry_until_success (n : nat) :
  fails_n_times world c n ->
  forall k f h l,
    cmd h = c -> (failures c l + k = n)%nat -> (k < f)%nat ->
    exists l',
      collect_results world f [h] l = (Ret tt, l') /\
      failures c l' = n /\
      retries c l' = (retries c l + k)%nat /\
      spawns c l' = (spawns c l + k)%nat /\
      successes c l' = S (successes c l).
Proof.
  intros Hw. induction k as [| k IH]; intros f h l Hh Hk Hf;
    (destruct f as [| f]; [lia |]);
    rewrite collect_results_cons, collect_pass_cons; cbv zeta;
    set (l0 := Log (Collecting (List.length [h])) :: l);
    assert (Hl0 : failures c l0 = failures c l) by reflexivity;
    pose proof (Hw l0 h Hh) as Hrc; rewrite Hl0 in Hrc.
  - rewrite (proj2 (Nat.leb_le n (failures c l))) in Hrc by lia.
    rewrite Hrc. simpl collect_pass. unfold ret.
    rewrite collect_results_nil. eexists. split; [reflexivity |].
    subst l0. pose proof (String.eqb_refl c) as Hc. rewrite <- Hh in Hc at 1.
    tally. lia.
  - rewrite (proj2 (Nat.leb_gt n (failures c l))) in Hrc by lia.
    rewrite Hrc. simpl collect_pass. unfold ret.
    match goal with
    | |- context [collect_results world f [?h'] ?l1] =>
        destruct (IH f h' l1) as (l' & E & G1 & G2 & G3 & G4)
    end.
    + exact Hh.
    + subst l0. pose proof (String.eqb_refl c) as Hc. rewrite <- Hh in Hc at 1.
      tally. lia.
    + lia.
    + exists l'. split; [exact E |].
      subst l0. pose proof (String.eqb_refl c) as Hc.
      rewrite <- Hh in Hc at 1. rewrite Hh in *.
      pose proof (String.eqb_refl c) as Hcc.
      tally. lia.
Qed.

End Retry.

Lemma flaky_fails_twice : fails_n_times Sample.flaky Sample.flaky_cmd 2.
Proof.
  intros l h Hh. unfold Sample.flaky. rewrite Hh, String.eqb_refl.
  destruct (2 <=? failures Sample.flaky_cmd l)%nat; reflexivity.
Defined.

(** * Further properties *)

(** ** lrange *)

Lemma progression_length (a st : Z) (n : nat) :
  List.length (progression a st n) = n.
Proof. revert a. induction n as [| n IH]; intros a; simpl; [| rewrite IH]; reflexivity. Qed.

Lemma progression_nth (n : nat) :
  forall a st i, (i < n)%nat -> nth i (progression a st n) 0 = a + Z.of_nat i * st.
Proof.
  induction n as [| n IH]; intros a st [| i] Hi; simpl progression; try lia.
  - simpl. lia.
  - cbn [nth]. rewrite IH by lia. lia.
Qed.

(** The run of an ascending [lrange] from [a]: [m] values, [m] being the
    number of terms of the progression that do not exceed [num2]. *)
Lemma lrange_run_up (n2 st : Z) (m : nat) :
  0 < st ->
  forall a fuel,
    (a <= n2 -> Z.of_nat m = (n2 - a) / st + 1) -> (n2 < a -> m = 0%nat) ->
    (m <= fuel)%nat ->
    drain Lrange.next fuel (Lrange.mk a n2 st Lrange.Le)
    = (progression a st m, Exhausted).
Proof.
  intros Hst. induction m as [| m IH]; intros a fuel Hle Hgt Hf.
  - apply drain_stop. unfold Lrange.next. simpl.
    destruct (Z.leb_spec a n2) as [H | H]; [| reflexivity].
    specialize (Hle H). pose proof (Z.div_pos (n2 - a) st). lia.
  - destruct fuel as [| fuel]; [lia |].
    assert (Ha : a <= n2) by (destruct (Z.le_gt_cases a n2); [trivial | lia]).
    specialize (Hle Ha).
    rewrite drain_S. unfold Lrange.next at 1. simpl.
    destruct (Z.leb_spec a n2) as [_ | H]; [| lia].
    rewrite (IH (a + st) fuel); [reflexivity | | | lia].
    + intros H. replace (n2 - (a + st)) with (n2 - a + (-1) * st) by lia.
      rewrite Z.div_add by lia. lia.
    + intros H. assert (E : (n2 - a) / st = 0) by (apply Z.div_small; lia). lia.
Qed.

(** The run of a descending [lrange] from [a]: the terms strictly above
    [num2]. *)
Lemma lrange_run_down (n2 st : Z) (m : nat) :
  st < 0 ->
  forall a fuel,
    (n2 < a -> Z.of_nat m = (a - n2 - 1) / (- st) + 1) -> (a <= n2 -> m = 0%nat) ->
    (m <= fuel)%nat ->
    drain Lrange.next fuel (Lrange.mk a n2 st Lrange.Gt)
    = (progression a st m, Exhausted).
Proof.
  intros Hst. induction m as [| m IH]; intros a fuel Hgt Hle Hf.
  - apply drain_stop. unfold Lrange.next. simpl.
    destruct (Z.gtb_spec a n2) as [H | H]; [| reflexivity].
    specialize (Hgt ltac:(lia)). pose proof (Z.div_pos (a - n2 - 1) (- st)). lia.
  - destruct fuel as [| fuel]; [lia |].
    assert (Ha : n2 < a) by (destruct (Z.lt_ge_cases n2 a); [trivial | lia]).
    specialize (Hgt Ha).
    rewrite drain_S. unfold Lrange.next at 1. simpl.
    destruct (Z.gtb_spec a n2) as [_ | H]; [| lia].
    rewrite (IH (a + st) fuel); [reflexivity | | | lia].
    + intros H. replace (a + st - n2 - 1) with (a - n2 - 1 + (-1) * (- st)) by lia.
      rewrite Z.div_add by lia. lia.
    + intros H. assert (E : (a - n2 - 1) / (- st) = 0) by (apply Z.div_small; lia).
      lia.
Qed.

Lemma lrange_positive_run (n1 n2 st : Z) (fuel : nat) :
  0 < st ->
  (n2 < n1 ->
   drain Lrange.next fuel (Lrange.init n1 n2 st) = ([], Exhausted)) /\
  (n1 <= n2 ->
   (Z.to_nat ((n2 - n1) / st + 1) <= fuel)%nat ->
   drain Lrange.next fuel (Lrange.init n1 n2 st)
   = (progression n1 st (Z.to_nat ((n2 - n1) / st + 1)), Exhausted) /\
   forall i, 0 <= i <= (n2 - n1) / st ->
     nth (Z.to_nat i) (progression n1 st (Z.to_nat ((n2 - n1) / st + 1))) 0
     = n1 + i * st /\ n1 + i * st <= n2).
Proof.
  intros Hst. unfold Lrange.init. split.
  - intros H. destruct (Z.ltb_spec n2 n1); [| lia].
    destruct (Z.gtb_spec st 0); [| lia].
    apply drain_stop. unfold Lrange.next. simpl.
    destruct (Z.gtb_spec n2 n2); [lia | reflexivity].
  - intros H Hf. destruct (Z.ltb_spec n2 n1); [lia |].
    destruct (Z.ltb_spec st 0); [lia |].
    pose proof (Z.div_pos (n2 - n1) st ltac:(lia) Hst) as Hq.
    split.
    + apply lrange_run_up; trivial; lia.
    + intros i Hi. split.
      * rewrite progression_nth by lia. lia.
      * pose proof (Z.mul_div_le (n2 - n1) st Hst). nia.
Qed.

(** X1. With a positive step, [lrange(num1, num2, step)] yields nothing when
    [num2 < num1], and otherwise the progression [num1, num1 + step, ...]
    up to [num2] included: [(num2 - num1) / step + 1] values. *)
Theorem lrange_positive_step (n1 n2 st : Z) (fuel : nat) :
  0 < st ->
  (n2 < n1 ->
   drain Lrange.next fuel (Lrange.init n1 n2 st) = ([], Exhausted)) /\
  (n1 <= n2 ->
   (Z.to_nat ((n2 - n1) / st + 1) <= fuel)%nat ->
   drain Lrange.next fuel (Lrange.init n1 n2 st)
   = (progression n1 st (Z.to_nat ((n2 - n1) / st + 1)), Exhausted) /\
   forall i, 0 <= i <= (n2 - n1) / st ->
     nth (Z.to_nat i) (progression n1 st (Z.to_nat ((n2 - n1) / st + 1))) 0
     = n1 + i * st /\ n1 + i * st <= n2).
Proof. exact (lrange_positive_run n1 n2 st fuel). Qed.

Lemma lrange_positive_step_witness :
  drain Lrange.next 6 (Lrange.init 1 6 1)
  = (progression 1 1 (Z.to_nat ((6 - 1) / 1 + 1)), Exhausted).
Proof.
  destruct (lrange_positive_step 1 6 1 6 ltac:(lia)) as [_ H].
  destruct H as [H _]; [lia | apply Nat.leb_le; reflexivity | exact H].
Defined.

Lemma lrange_down_run (n1 n2 st : Z) (fuel : nat) :
  st < 0 -> n2 < n1 ->
  (Z.to_nat ((n1 - n2 - 1) / (- st) + 1) <= fuel)%nat ->
  drain Lrange.next fuel (Lrange.init n1 n2 st)
  = (progression n1 st (Z.to_nat ((n1 - n2 - 1) / (- st) + 1)), Exhausted) /\
  forall x, In x (progression n1 st (Z.to_nat ((n1 - n2 - 1) / (- st) + 1))) ->
    n2 < x <= n1.
Proof.
  intros Hst Hlt Hf. unfold Lrange.init.
  destruct (Z.ltb_spec n2 n1); [| lia].
  destruct (Z.gtb_spec st 0); [lia |].
  pose proof (Z.div_pos (n1 - n2 - 1) (- st) ltac:(lia) ltac:(lia)) as Hq.
  split.
  - apply lrange_run_down; trivial; lia.
  - intros x Hx. apply (In_nth _ _ 0) in Hx as (i & Hi & <-).
    rewrite progression_length in Hi. rewrite progression_nth by exact Hi.
    pose proof (Z.mul_div_le (n1 - n2 - 1) (- st) ltac:(lia)). nia.
Qed.

(** X2. With a negative step and [num2 < num1], [lrange] counts down from
    [num1] and stops before [num2]: it yields the terms strictly greater
    than [num2], [(num1 - num2 - 1) / (- step) + 1] of them ([num2] itself
    is never yielded, unlike on the way up). *)
Theorem lrange_counting_down (n1 n2 st : Z) (fuel : nat) :
  st < 0 -> n2 < n1 ->
  (Z.to_nat ((n1 - n2 - 1) / (- st) + 1) <= fuel)%nat ->
  drain Lrange.next fuel (Lrange.init n1 n2 st)
  = (progression n1 st (Z.to_nat ((n1 - n2 - 1) / (- st) + 1)), Exhausted) /\
  forall x, In x (progression n1 st (Z.to_nat ((n1 - n2 - 1) / (- st) + 1))) ->
    n2 < x <= n1.
Proof. exact (lrange_down_run n1 n2 st fuel). Qed.

Lemma lrange_counting_down_witness :
  drain Lrange.next 2 (Lrange.init 5 1 (-2))
  = (progression 5 (-2) (Z.to_nat ((5 - 1 - 1) / (- (-2)) + 1)), Exhausted) /\
  forall x,
    In x (progression 5 (-2) (Z.to_nat ((5 - 1 - 1) / (- (-2)) + 1))) ->
    1 < x <= 5.
Proof.
  apply (lrange_counting_down 5 1 (-2) 2); [lia | lia |].
  apply Nat.leb_le. reflexivity.
Defined.

Lemma looping_next (s : Lrange.state) :
  looping s ->
  exists s', Lrange.next s = Yield (Lrange.num1 s) s' /\ looping s'.
Proof.
  destruct s as [a b st o]. unfold looping, Lrange.next. simpl.
  intros [(-> & H1 & H2) | (-> & H1 & H2)]; simpl.
  - destruct (Z.leb_spec a b); [| lia]. eexists. split; [reflexivity |].
    left. simpl. repeat split; lia.
  - destruct (Z.gtb_spec a b); [| lia]. eexists. split; [reflexivity |].
    right. simpl. repeat split; lia.
Qed.

Lemma looping_unfinished (fuel : nat) :
  forall s, looping s ->
    snd (drain Lrange.next fuel s) = Unfinished /\
    List.length (fst (drain Lrange.next fuel s)) = fuel.
Proof.
  induction fuel as [| fuel IH]; intros s Hs;
    destruct (looping_next s Hs) as (s' & E & Hs').
  - simpl. rewrite E. split; reflexivity.
  - rewrite drain_S, E. destruct (IH s' Hs') as [H1 H2].
    destruct (drain Lrange.next fuel s') as [l e]. simpl in *.
    split; [exact H1 | now rewrite H2].
Qed.

(** X3. [lrange] ends exactly when the step is positive, or negative with
    [num2 < num1].  In the other cases (a step of 0, or a negative step
    with [num1 <= num2]) it yields values for ever: whatever the fuel, that
    many values are yielded and the generator is not exhausted. *)
Theorem lrange_terminates_iff (n1 n2 st : Z) :
  ((exists fuel l, drain Lrange.next fuel (Lrange.init n1 n2 st) = (l, Exhausted))
   <-> 0 < st \/ (st < 0 /\ n2 < n1)) /\
  (~ (0 < st \/ (st < 0 /\ n2 < n1)) ->
   forall fuel,
     snd (drain Lrange.next fuel (Lrange.init n1 n2 st)) = Unfinished /\
     List.length (fst (drain Lrange.next fuel (Lrange.init n1 n2 st))) = fuel).
Proof.
  assert (Hloop : ~ (0 < st \/ (st < 0 /\ n2 < n1)) ->
                  looping (Lrange.init n1 n2 st)).
  { intros H. unfold Lrange.init, looping.
    destruct (Z.ltb_spec n2 n1).
    - destruct (Z.gtb_spec st 0); [lia |]. right. simpl.
      split; [reflexivity | lia].
    - destruct (Z.ltb_spec st 0); left; simpl; (split; [reflexivity | lia]). }
  split; [split |].
  - intros (fuel & l & E).
    destruct (Z.lt_ge_cases 0 st) as [H | H]; [now left |].
    destruct (Z.lt_ge_cases n2 n1) as [H' | H'].
    + destruct (Z.eq_dec st 0) as [-> | Hne]; [| right; lia].
      destruct (looping_unfinished fuel _ (Hloop ltac:(lia))) as [Hu _].
      rewrite E in Hu. discriminate Hu.
    + destruct (looping_unfinished fuel _ (Hloop ltac:(lia))) as [Hu _].
      rewrite E in Hu. discriminate Hu.
  - intros [H | [H H']].
    + destruct (Z.lt_ge_cases n2 n1) as [Hlt | Hge].
      * exists 0%nat, []. now apply lrange_positive_run.
      * exists (Z.to_nat ((n2 - n1) / st + 1)).
        exists (progression n1 st (Z.to_nat ((n2 - n1) / st + 1))).
        apply (proj2 (lrange_positive_run n1 n2 st _ H) Hge).
        apply Nat.le_refl.
    + exists (Z.to_nat ((n1 - n2 - 1) / (- st) + 1)).
      exists (progression n1 st (Z.to_nat ((n1 - n2 - 1) / (- st) + 1))).
      apply (lrange_down_run n1 n2 st _ H H'). apply Nat.le_refl.
  - intros H fuel. apply looping_unfinished. now apply Hloop.
Qed.

Lemma lrange_terminates_iff_witness :
  snd (drain Lrange.next 7 (Lrange.init 1 6 0)) = Unfinished /\
  List.length (fst (drain Lrange.next 7 (Lrange.init 1 6 0))) = 7%nat.
Proof.
  apply (proj2 (lrange_terminates_iff 1 6 0)). lia.
Defined.

(** ** The partition in the general case *)

(** The walk of [get_sub_range_generator] pairs up the values of its
    [lrange] and adds the tail. *)
Lemma walking_chain (n2 st stop : Z) (m : nat) :
  0 < st ->
  forall s a fuel,
    (a <= n2 -> Z.of_nat m = (n2 - a) / st + 1) -> (n2 < a -> m = 0%nat) ->
    (m < fuel)%nat ->
    drain SubRange.next fuel
          (SubRange.Walking s stop (Lrange.mk a n2 st Lrange.Le))
    = (chain s (progression a st m) stop, Exhausted).
Proof.
  intros Hst. induction m as [| m IH]; intros s a fuel Hle Hgt Hf;
    (destruct fuel as [| fuel]; [lia |]);
    rewrite drain_S; cbn [SubRange.next]; rewrite walk_ascending.
  - destruct (Z.leb_spec a n2) as [H | H].
    + specialize (Hle H). pose proof (Z.div_pos (n2 - a) st). lia.
    + simpl. destruct (s <? stop); [rewrite drain_finished |]; reflexivity.
  - assert (Ha : a <= n2) by (destruct (Z.le_gt_cases a n2); [trivial | lia]).
    specialize (Hle Ha). destruct (Z.leb_spec a n2) as [_ | H]; [| lia].
    rewrite (IH a (a + st) fuel); [reflexivity | | | lia].
    + intros H. replace (n2 - (a + st)) with (n2 - a + (-1) * st) by lia.
      rewrite Z.div_add by lia. lia.
    + intros H. assert (E : (n2 - a) / st = 0) by (apply Z.div_small; lia). lia.
Qed.

(** In the general case the generator yields the chain over the
    progression of step [step_increment], of [(stop + 1 - start) /
    step_increment] values. *)
Lemma partition_general (start stop steps : Z) (fuel : nat) :
  1 <= steps -> start + steps + 1 < stop ->
  let inc := (stop - start) / steps in
  let m := Z.to_nat ((stop + 1 - start) / inc) in
  (m < fuel)%nat ->
  get_sub_range_generator fuel start stop steps
  = (chain start (progression (start + inc) inc m) stop, Exhausted).
Proof.
  intros Hs Hlt inc m Hf.
  pose proof (increment_bounds start stop steps Hs Hlt) as [Hlo Hhi].
  rewrite Z.abs_eq in Hlo, Hhi by lia. fold inc in Hlo, Hhi.
  assert (Hm : (stop + 1 - (start + inc)) / inc + 1 = (stop + 1 - start) / inc).
  { replace (stop + 1 - (start + inc)) with (stop + 1 - start + (-1) * inc) by lia.
    rewrite Z.div_add by lia. lia. }
  pose proof (Z.div_pos (stop + 1 - (start + inc)) inc ltac:(lia) ltac:(lia)).
  destruct fuel as [| fuel]; [lia |].
  rewrite <- (walking_chain (stop + 1) inc stop m ltac:(lia) start (start + inc)
                (S fuel)); [| subst m; lia | lia | lia].
  unfold get_sub_range_generator. rewrite !drain_S.
  cbn [SubRange.next].
  destruct (Z.ltb_spec (start + steps + 1) stop); [| lia].
  destruct (Z.eqb_spec steps 0); [lia |].
  rewrite Z.abs_eq by lia. fold inc. unfold Lrange.init.
  destruct (Z.ltb_spec (stop + 1) (start + inc)); [lia |].
  destruct (Z.ltb_spec inc 0); [lia | reflexivity].
Qed.

Lemma hd_rev_last {A : Type} (l : list A) (d : A) :
  l <> [] -> hd_error (rev l) = Some (last l d).
Proof.
  intros H. destruct (exists_last H) as (l' & x & ->).
  rewrite rev_app_distr, last_last. reflexivity.
Qed.

Lemma last_default {A : Type} (l : list A) (d d' : A) :
  l <> [] -> last l d = last l d'.
Proof.
  induction l as [| x l IH]; [contradiction |]. intros _.
  destruct l as [| y l]; [reflexivity |].
  change (last (y :: l) d = last (y :: l) d'). apply IH. discriminate.
Qed.

Lemma last_cons_nonempty {A : Type} (x : A) (l : list A) (d : A) :
  l <> [] -> last (x :: l) d = last l d.
Proof. destruct l; [contradiction | reflexivity]. Qed.

(** The shape of the chain over a progression of positive step from [s]:
    [L] is the last value of the progression. *)
Lemma chain_shape (inc stop : Z) (m : nat) :
  0 < inc ->
  forall s,
    let L := s + Z.of_nat m * inc in
    let l := chain s (progression (s + inc) inc m) stop in
    List.length l = (m + if (L <? stop)%Z then 1 else 0)%nat /\
    contiguous l /\
    (forall p, hd_error l = Some p -> fst p = s) /\
    (l <> [] -> last_end l s = if L <? stop then stop else L) /\
    (forall p, In p l ->
       s <= fst p /\ fst p < snd p /\ snd p <= Z.max L stop /\
       snd p - fst p <= Z.max inc (stop - L)).
Proof.
  intros Hinc. induction m as [| m IH]; intros s L l.
  - subst L l. simpl. rewrite Z.add_0_r.
    destruct (Z.ltb_spec s stop) as [H | H]; simpl.
    + split; [reflexivity |]. split; [auto |]. split; [now intros p [= <-] |].
      split; [reflexivity |].
      intros p [<- | []]. simpl. lia.
    + split; [reflexivity |]. split; [exact I |]. split; [discriminate |].
      split; [contradiction |]. intros p [].
  - subst L l. cbn [progression chain].
    destruct (IH (s + inc)) as (H1 & H2 & H3 & H4 & H5).
    replace (s + inc + Z.of_nat m * inc) with (s + Z.of_nat (S m) * inc) in * by lia.
    set (l' := chain (s + inc) (progression (s + inc + inc) inc m) stop) in *.
    set (L := s + Z.of_nat (S m) * inc) in *.
    split; [simpl; rewrite H1; reflexivity |]. split; [| split; [| split]].
    + split; [| exact H2]. destruct l' as [| q l'']; [trivial |].
      simpl. symmetry. now apply H3.
    + now intros p [= <-].
    + intros _. unfold last_end in *. destruct l' as [| q l''] eqn:El.
      * simpl. simpl in H1. destruct (L <? stop); [lia |].
        assert (m = 0%nat) by lia. subst m L. lia.
      * rewrite last_cons_nonempty by discriminate.
        rewrite <- (H4 ltac:(discriminate)). f_equal.
        apply last_default. discriminate.
    + intros p [<- | Hp]; simpl; [subst L; lia |].
      destruct (H5 p Hp) as (G1 & G2 & G3 & G4). lia.
Qed.

(** Without a tail, every pair of the chain has the width of the step. *)
Lemma chain_widths (inc stop : Z) (m : nat) :
  forall s,
    stop <= s + Z.of_nat m * inc ->
    forall p, In p (chain s (progression (s + inc) inc m) stop) ->
      snd p - fst p = inc.
Proof.
  induction m as [| m IH]; intros s H p; simpl.
  - destruct (Z.ltb_spec s stop); [lia | intros []].
  - intros [<- | Hp]; [simpl; lia |]. apply (IH (s + inc)); [lia | exact Hp].
Qed.

Lemma reconstructs_last (s e : Z) (l : list (Z * Z)) :
  l <> [] ->
  (forall p, hd_error l = Some p -> fst p = s) -> contiguous l ->
  (reconstructs s e l <-> last_end l s = e).
Proof.
  intros Hne Hhd Hc. unfold reconstructs, last_end.
  rewrite (hd_rev_last l (s, s) Hne). split.
  - intros (_ & _ & q & [= <-] & Hq). exact Hq.
  - intros H. split; [| split; [exact Hc | eauto]].
    destruct l as [| p l']; [contradiction |]. exists p. split; [reflexivity |].
    now apply Hhd.
Qed.

(** The arithmetic of the general case: the increment, and the number of
    values of the [lrange]. *)
Lemma general_case_arith (start stop steps : Z) :
  1 <= steps -> start + steps + 1 < stop ->
  let inc := (stop - start) / steps in
  let q := (stop + 1 - start) / inc in
  1 <= inc /\ steps * inc <= stop - start < steps * inc + steps /\
  q * inc <= stop + 1 - start < q * inc + inc /\ steps <= q <= 2 * steps /\
  (start + q * inc < stop -> q + 1 <= 2 * steps).
Proof.
  intros Hs Hlt inc q.
  pose proof (increment_bounds start stop steps Hs Hlt) as [Hlo _].
  rewrite Z.abs_eq in Hlo by lia. fold inc in Hlo.
  pose proof (Z.div_mod (stop - start) steps ltac:(lia)) as Hd.
  pose proof (Z.mod_pos_bound (stop - start) steps ltac:(lia)) as Hm.
  fold inc in Hd.
  pose proof (Z.div_mod (stop + 1 - start) inc ltac:(lia)) as Hd'.
  pose proof (Z.mod_pos_bound (stop + 1 - start) inc ltac:(lia)) as Hm'.
  fold q in Hd'.
  assert (Hq : steps <= q) by (apply Z.div_le_lower_bound; nia).
  assert (Hq2 : q <= 2 * steps) by (apply Z.div_le_upper_bound; nia).
  repeat split; try lia; try nia.
Qed.

(** X4. For [start < stop] and [steps >= 1] the generator ends, and its
    pairs begin at [start], follow one another without gap or overlap, are
    never empty or reversed, and end at [stop] or at [stop + 1]: at
    [stop + 1] exactly when the general case is taken and the increment
    divides [stop + 1 - start]. *)
Theorem partition_covers_or_overshoots (start stop steps : Z) (fuel : nat) :
  1 <= steps -> start < stop ->
  (Z.to_nat (stop - start) + 2 <= fuel)%nat ->
  exists l,
    get_sub_range_generator fuel start stop steps = (l, Exhausted) /\
    (reconstructs start stop l \/ reconstructs start (stop + 1) l) /\
    (reconstructs start (stop + 1) l <->
     start + steps + 1 < stop /\
     (stop + 1 - start) mod ((stop - start) / steps) = 0) /\
    (forall p, In p l -> start <= fst p /\ fst p < snd p /\ snd p <= stop + 1).
Proof.
  intros Hs Hlt Hf.
  destruct (Z.lt_ge_cases (start + steps + 1) stop) as [Hg | Hd].
  - pose proof (general_case_arith start stop steps Hs Hg) as Ha.
    cbv zeta in Ha.
    set (inc := (stop - start) / steps) in *.
    set (q := (stop + 1 - start) / inc) in *.
    destruct Ha as (Hinc & Hsp & Hq & Hqs & _).
    exists (chain start (progression (start + inc) inc (Z.to_nat q)) stop).
    split.
    { apply partition_general; trivial. fold inc. fold q. nia. }
    destruct (chain_shape inc stop (Z.to_nat q) ltac:(lia) start)
      as (H1 & H2 & H3 & H4 & H5).
    rewrite Z2Nat.id in * by lia.
    set (l := chain start (progression (start + inc) inc (Z.to_nat q)) stop) in *.
    assert (Hne : l <> []).
    { intros E. rewrite E in H1. simpl in H1. lia. }
    specialize (H4 Hne).
    assert (Hmod : (stop + 1 - start) mod inc = 0 <-> start + q * inc = stop + 1).
    { pose proof (Z.div_mod (stop + 1 - start) inc ltac:(lia)) as Hdm.
      fold q in Hdm. lia. }
    rewrite !(reconstructs_last start _ l Hne H3 H2), H4.
    destruct (Z.ltb_spec (start + q * inc) stop) as [Ht | Ht].
    + split; [now left |]. split; [lia |].
      intros p Hp. destruct (H5 p Hp) as (G1 & G2 & G3 & _). lia.
    + split; [lia |]. split; [lia |].
      intros p Hp. destruct (H5 p Hp) as (G1 & G2 & G3 & _). lia.
  - exists [(start, stop)]. destruct fuel as [| fuel]; [lia |].
    split; [now apply degenerate_single |].
    assert (R : reconstructs start stop [(start, stop)]).
    { unfold reconstructs. simpl.
      split; [exists (start, stop); split; reflexivity |].
      split; [auto |]. exists (start, stop). split; reflexivity. }
    split; [now left |]. split.
    + split; [| lia]. intros (_ & _ & q & Hq & Hq'). simpl in Hq.
      injection Hq as <-. simpl in Hq'. lia.
    + intros p [<- | []]. simpl. lia.
Qed.

Lemma partition_covers_or_overshoots_witness :
  exists l,
    get_sub_range_generator 7 0 5 3 = (l, Exhausted) /\
    (reconstructs 0 5 l \/ reconstructs 0 (5 + 1) l) /\
    (reconstructs 0 (5 + 1) l <->
     0 + 3 + 1 < 5 /\ (5 + 1 - 0) mod ((5 - 0) / 3) = 0) /\
    (forall p, In p l -> 0 <= fst p /\ fst p < snd p /\ snd p <= 5 + 1).
Proof.
  apply (partition_covers_or_overshoots 0 5 3 7); [lia | lia |].
  apply Nat.leb_le. reflexivity.
Defined.

(** X5. In the general case ([steps >= 1] and [start + steps + 1 < stop])
    the number of pairs is the number [(stop + 1 - start) / step_increment]
    of values of the [lrange], plus one for the tail when the last value is
    below [stop]; it lies between [steps] and [2 * steps]. *)
Theorem partition_pair_count (start stop steps : Z) (fuel : nat) :
  1 <= steps -> start + steps + 1 < stop ->
  (Z.to_nat (stop - start) + 2 <= fuel)%nat ->
  let inc := (stop - start) / steps in
  let q := (stop + 1 - start) / inc in
  exists l,
    get_sub_range_generator fuel start stop steps = (l, Exhausted) /\
    Z.of_nat (List.length l) = q + (if start + q * inc <? stop then 1 else 0) /\
    steps <= Z.of_nat (List.length l) <= 2 * steps.
Proof.
  intros Hs Hg Hf inc q.
  destruct (general_case_arith start stop steps Hs Hg)
    as (Hinc & Hsp & Hq & Hqs & Ht).
  fold inc in Hinc, Hsp, Hq, Hqs, Ht. fold q in Hq, Hqs, Ht.
  exists (chain start (progression (start + inc) inc (Z.to_nat q)) stop).
  split.
  { apply partition_general; trivial. fold inc. fold q. nia. }
  destruct (chain_shape inc stop (Z.to_nat q) ltac:(lia) start) as (H1 & _).
  rewrite Z2Nat.id in H1 by lia. rewrite H1.
  destruct (Z.ltb_spec (start + q * inc) stop) as [H | H]; split; lia.
Qed.

Lemma partition_pair_count_witness :
  exists l,
    get_sub_range_generator 11 0 9 5 = (l, Exhausted) /\
    Z.of_nat (List.length l)
    = (9 + 1 - 0) / ((9 - 0) / 5)
      + (if 0 + (9 + 1 - 0) / ((9 - 0) / 5) * ((9 - 0) / 5) <? 9 then 1 else 0) /\
    5 <= Z.of_nat (List.length l) <= 2 * 5.
Proof.
  apply (partition_pair_count 0 9 5 11); [lia | lia |].
  apply Nat.leb_le. reflexivity.
Defined.

(** X6. When [stop - start] is [steps] times a width of at least 2, the
    generator yields exactly [steps] pairs, each of that width, which
    reconstruct [[start, stop]] exactly. *)
Theorem partition_exact_division (start steps width : Z) (fuel : nat) :
  1 <= steps -> 2 <= width ->
  (Z.to_nat steps < fuel)%nat ->
  exists l,
    get_sub_range_generator fuel start (start + steps * width) steps
    = (l, Exhausted) /\
    Z.of_nat (List.length l) = steps /\
    reconstructs start (start + steps * width) l /\
    (forall p, In p l -> snd p - fst p = width).
Proof.
  intros Hs Hw Hf. set (stop := start + steps * width).
  assert (Hinc : (stop - start) / steps = width).
  { subst stop. replace (start + steps * width - start) with (width * steps) by lia.
    apply Z.div_mul. lia. }
  destruct (Z.lt_ge_cases (start + steps + 1) stop) as [Hg | Hd].
  - assert (Hq : (stop + 1 - start) / width = steps).
    { subst stop. symmetry. apply (Z.div_unique _ _ _ 1); lia. }
    exists (chain start (progression (start + width) width (Z.to_nat steps)) stop).
    split.
    { rewrite <- Hq at 2. rewrite <- Hinc at 1 2 3.
      apply partition_general; trivial. rewrite Hinc, Hq. exact Hf. }
    destruct (chain_shape width stop (Z.to_nat steps) ltac:(lia) start)
      as (H1 & H2 & H3 & H4 & _).
    rewrite Z2Nat.id in * by lia.
    destruct (Z.ltb_spec (start + steps * width) stop) as [H | _];
      [subst stop; lia |].
    split; [lia |]. split.
    + apply reconstructs_last; trivial.
      * intros E. rewrite E in H1. simpl in H1. lia.
      * apply H4. intros E. rewrite E in H1. simpl in H1. lia.
    + apply chain_widths. rewrite Z2Nat.id by lia. subst stop. lia.
  - assert (steps = 1 /\ width = 2) as [-> ->] by (subst stop; nia).
    exists [(start, stop)]. destruct fuel as [| fuel]; [lia |].
    split; [apply degenerate_single; lia |]. split; [reflexivity |]. split.
    + unfold reconstructs. simpl.
      split; [exists (start, stop); split; reflexivity |].
      split; [auto |]. exists (start, stop). split; reflexivity.
    + intros p [<- | []]. subst stop. simpl. lia.
Qed.

Lemma partition_exact_division_witness :
  exists l,
    get_sub_range_generator 6 20 (20 + 5 * 2) 5 = (l, Exhausted) /\
    Z.of_nat (List.length l) = 5 /\
    reconstructs 20 (20 + 5 * 2) l /\
    (forall p, In p l -> snd p - fst p = 2).
Proof.
  apply (partition_exact_division 20 5 2 6); [lia | lia |].
  apply Nat.ltb_lt. reflexivity.
Defined.

(** ** Formatting tokens *)

Lemma digits_uint (d : Decimal.uint) :
  forall acc, Str.digits acc (NilEmpty.string_of_uint d) = Some (uint_val acc d).
Proof.
  induction d; intros acc; cbn [NilEmpty.string_of_uint uint_val Str.digits];
    try reflexivity;
    match goal with
    | |- context [Str.digit ?c] =>
        let v := eval vm_compute in (Str.digit c) in
        change (Str.digit c) with v
    end; cbv iota; apply IHd.
Qed.

Lemma uint_val_pos (d : Decimal.uint) :
  forall p, uint_val (Z.pos p) d = Z.pos (Pos.of_uint_acc d p).
Proof.
  induction d; intros p; cbn [uint_val Pos.of_uint_acc]; try reflexivity;
    rewrite <- IHd; f_equal; lia.
Qed.

Lemma uint_val_0 (d : Decimal.uint) : uint_val 0 d = Z.of_N (Pos.of_uint d).
Proof.
  induction d; cbn [uint_val Pos.of_uint]; try reflexivity;
    try (exact IHd);
    match goal with
    | |- uint_val ?a _ = _ =>
        let v := eval vm_compute in a in change a with v
    end; apply uint_val_pos.
Qed.

Lemma decimal_digits (n : Z) : Str.digits 0 (Str.decimal n) = Some (Z.abs n).
Proof.
  assert (V : uint_val 0 (N.to_uint (Z.abs_N n)) = Z.abs n).
  { rewrite uint_val_0.
    change (Pos.of_uint (N.to_uint (Z.abs_N n)))
      with (N.of_uint (N.to_uint (Z.abs_N n))).
    rewrite DecimalN.Unsigned.of_to. apply N2Z.inj_abs_N. }
  unfold Str.decimal, NilZero.string_of_uint. rewrite <- V.
  destruct (N.to_uint (Z.abs_N n)); try apply digits_uint. reflexivity.
Qed.

Lemma digits_zeros (k : nat) (s : string) :
  Str.digits 0 (Str.zeros k ++ s) = Str.digits 0 s.
Proof. induction k as [| k IH]; [reflexivity | exact IH]. Qed.

(** A string that begins with a digit is read as an unsigned number. *)
Lemma long_digits (c : ascii) (s : string) (d : Z) :
  Str.digit c = Some d ->
  Str.long (String c s) = Str.digits 0 (String c s).
Proof.
  intros H. unfold Str.long, Str.unsigned. rewrite H.
  destruct c as [[] [] [] [] [] [] [] []]; try reflexivity; discriminate H.
Qed.

Lemma decimal_first_digit (n : Z) :
  exists c s d, Str.decimal n = String c s /\ Str.digit c = Some d.
Proof.
  unfold Str.decimal, NilZero.string_of_uint.
  destruct (N.to_uint (Z.abs_N n)); cbn [NilEmpty.string_of_uint];
    eexists; eexists; eexists; (split; [reflexivity | reflexivity]).
Qed.

Lemma unsigned_padded (k : nat) (n : Z) :
  Str.unsigned (Str.zeros k ++ Str.decimal n) = Some (Z.abs n) /\
  exists c s d,
    (Str.zeros k ++ Str.decimal n)%string = String c s /\ Str.digit c = Some d.
Proof.
  assert (E : exists c s d,
             (Str.zeros k ++ Str.decimal n)%string = String c s /\
             Str.digit c = Some d).
  { destruct k as [| k].
    - apply decimal_first_digit.
    - simpl. eexists; eexists; eexists. split; reflexivity. }
  split; [| exact E]. destruct E as (c & s & d & E & Hd).
  rewrite E. unfold Str.unsigned. rewrite Hd, <- E, digits_zeros.
  apply decimal_digits.
Qed.

(** X7. Reading back a formatted token gives the token: [long] of the
    output of [format_murmur] or [format_md5] is the number formatted,
    whatever its sign and size; so both formats are injective. *)
Theorem format_parse_roundtrip :
  (forall width num, Str.long (Str.format_0d width num) = Some num) /\
  (forall num, Str.long (format_murmur num) = Some num) /\
  (forall num, Str.long (format_md5 num) = Some num) /\
  (forall a b, format_murmur a = format_murmur b -> a = b) /\
  (forall a b, format_md5 a = format_md5 b -> a = b).
Proof.
  assert (R : forall width num, Str.long (Str.format_0d width num) = Some num).
  { intros width num. unfold Str.format_0d.
    destruct (Z.ltb_spec num 0) as [Hneg | Hpos].
    - set (k := (width - _ - _)%nat).
      destruct (unsigned_padded k num) as [Hu _].
      cbn [String.append Str.long]. rewrite Hu. simpl. f_equal. lia.
    - set (k := (width - _ - _)%nat).
      destruct (unsigned_padded k num) as [Hu (c & s & d & E & Hd)].
      cbn [String.append]. rewrite E, (long_digits c s d Hd), <- E.
      unfold Str.unsigned in Hu. rewrite E, Hd, <- E in Hu. rewrite Hu.
      f_equal. lia. }
  split; [exact R |]. split; [intros; apply R |]. split; [intros; apply R |].
  split; intros a b H; apply (f_equal Str.long) in H;
    unfold format_murmur, format_md5 in H; rewrite !R in H; now injection H.
Qed.

Lemma string_length_append (s t : string) :
  String.length (s ++ t) = (String.length s + String.length t)%nat.
Proof. induction s as [| c s IH]; simpl; [| rewrite IH]; reflexivity. Qed.

Lemma zeros_length (k : nat) : String.length (Str.zeros k) = k.
Proof. induction k as [| k IH]; simpl; [| rewrite IH]; reflexivity. Qed.

(** X8. The formats pad with zeros and never truncate: the output of
    [format_murmur] has the sign and digits of the number, filled with
    zeros up to 20 characters (39 for [format_md5]), and is longer when the
    sign and digits need more. *)
Theorem format_width (num : Z) :
  let signed :=
    ((if (num <? 0)%Z then 1 else 0) + String.length (Str.decimal num))%nat in
  String.length (format_murmur num) = Nat.max 20 signed /\
  String.length (format_md5 num) = Nat.max 39 signed.
Proof.
  unfold format_murmur, format_md5, Str.format_0d.
  destruct (num <? 0); cbv zeta;
    rewrite !string_length_append, !zeros_length; simpl String.length; lia.
Qed.

(** ** Ring topology, besides the claims *)

(** X9. [is_murmur_ring] holds exactly of the rings that have a negative
    token; it is false of the empty ring, and of an ascending ring it holds
    exactly when the first token is negative. *)
Theorem is_murmur_ring_iff (ring : list Z) :
  (is_murmur_ring ring = true <-> exists i, In i ring /\ i < 0) /\
  is_murmur_ring [] = false /\
  (Sorted Z.le ring ->
   is_murmur_ring ring = true <-> exists i, hd_error ring = Some i /\ i < 0).
Proof.
  assert (H : is_murmur_ring ring = true <-> exists i, In i ring /\ i < 0).
  { unfold is_murmur_ring. rewrite existsb_exists.
    split; intros (i & Hi & Hn); exists i; (split; [exact Hi |]);
      now apply Z.ltb_lt. }
  split; [exact H |]. split; [reflexivity |].
  intros Hs. rewrite H. split.
  - intros (i & Hi & Hn). destruct ring as [| a ring]; [contradiction |].
    exists a. split; [reflexivity |]. destruct Hi as [<- | Hi]; [exact Hn |].
    apply Sorted_StronglySorted in Hs; [| intros x y z; apply Z.le_trans].
    apply StronglySorted_inv in Hs as [_ Ha]. rewrite Forall_forall in Ha.
    specialize (Ha i Hi). lia.
  - intros (i & Hi & Hn). exists i. split; [| exact Hn].
    destruct ring; [discriminate Hi |]. injection Hi as ->. now left.
Qed.

Lemma is_murmur_ring_iff_witness :
  is_murmur_ring [-5; 3; 10] = true <->
  exists i, hd_error [-5; 3; 10] = Some i /\ i < 0.
Proof.
  apply (proj2 (proj2 (is_murmur_ring_iff [-5; 3; 10]))).
  repeat constructor; lia.
Defined.

Lemma range_termination_member (token : Z) (ring : list Z) :
  (get_range_termination token ring = None <-> ring = []) /\
  (forall r, get_range_termination token ring = Some r ->
     In r ring /\
     ((token < r /\
       exists before after,
         ring = (before ++ r :: after)%list /\
         forall x, In x before -> x <= token) \/
      ((forall x, In x ring -> x <= token) /\ hd_error ring = Some r))).
Proof.
  assert (F : match first_above token ring with
              | Some r =>
                  token < r /\
                  exists before after,
                    ring = (before ++ r :: after)%list /\
                    forall x, In x before -> x <= token
              | None => forall x, In x ring -> x <= token
              end).
  { induction ring as [| a ring IH]; simpl; [intros x [] |].
    destruct (Z.ltb_spec token a) as [Hlt | Hge].
    - split; [exact Hlt |]. exists [], ring. split; [reflexivity | intros x []].
    - destruct (first_above token ring) as [r |].
      + destruct IH as (Hlt & before & after & -> & Hb). split; [exact Hlt |].
        exists (a :: before), after. split; [reflexivity |].
        intros x [<- | Hx]; [exact Hge | now apply Hb].
      + intros x [<- | Hx]; [exact Hge | now apply IH]. }
  unfold get_range_termination. destruct (first_above token ring) as [r |].
  - destruct F as (Hlt & before & after & E & Hb). split.
    + split; [discriminate |]. intros ->. destruct before; discriminate E.
    + intros r' [= <-]. split.
      * rewrite E. apply in_or_app. right. now left.
      * left. split; [exact Hlt |]. exists before, after. split; trivial.
  - split.
    + destruct ring; simpl; split; trivial; discriminate.
    + intros r Hr. split; [| right; split; trivial].
      destruct ring; [discriminate Hr |]. injection Hr as ->. now left.
Qed.

(** X10. [get_range_termination] fails (with the [IndexError] of
    [ring[0]]) exactly on the empty ring; on any other ring, ascending or
    not, it returns a token of the ring: the first one in ring order that is
    above [token], or the first of the ring when none is. *)
Theorem range_termination_any_ring (token : Z) (ring : list Z) :
  (get_range_termination token ring = None <-> ring = []) /\
  (forall r, get_range_termination token ring = Some r ->
     In r ring /\
     ((token < r /\
       exists before after,
         ring = (before ++ r :: after)%list /\
         forall x, In x before -> x <= token) \/
      ((forall x, In x ring -> x <= token) /\ hd_error ring = Some r))).
Proof. exact (range_termination_member token ring). Qed.

(** ** The host listing *)

(** What the loop of [get_host_tokens] returns or raises. *)
Lemma host_rows_spec (lines : list string) :
  forall token_list,
    match host_rows lines token_list with
    | inr toks =>
        toks = (token_list
                ++ flat_map host_line_token
                     (filter (Str.startswith "Token") lines))%list
    | inl e =>
        exists line,
          In line lines /\ Str.startswith "Token" line = true /\
          ((e = IndexError /\ nth_error (Str.split line) 2 = None) \/
           (e = ValueError /\
            exists p, nth_error (Str.split line) 2 = Some p /\ Str.long p = None))
    end.
Proof.
  induction lines as [| line rest IH]; intros token_list;
    cbn [host_rows filter flat_map].
  - now rewrite app_nil_r.
  - destruct (Str.startswith "Token" line) eqn:Hs; cbn [negb flat_map].
    + unfold host_line_token at 1.
      destruct (nth_error (Str.split line) 2) as [p |] eqn:Hp.
      * destruct (Str.long p) as [t |] eqn:Ht.
        -- specialize (IH (token_list ++ [t])%list).
           destruct (host_rows rest (token_list ++ [t])) as [e | toks].
           ++ destruct IH as (line' & Hin & H). exists line'.
              split; [now apply in_cons | exact H].
           ++ rewrite IH, <- app_assoc. reflexivity.
        -- exists line. split; [apply in_eq |]. split; [exact Hs |]. right.
           split; [reflexivity |]. exists p. split; trivial.
      * exists line. split; [apply in_eq |]. split; [exact Hs |]. left.
        split; trivial.
    + specialize (IH token_list).
      destruct (host_rows rest token_list) as [e | toks].
      * destruct IH as (line' & Hin & H). exists line'.
        split; [now apply in_cons | exact H].
      * exact IH.
Qed.

(** X11. [get_host_tokens] accepts a listing exactly when its process
    exited with 0 and its output contains [Token]; it then returns the
    tokens of the lines beginning with [Token] (their third field), in the
    order of the listing, unsorted and with duplicates kept.  Otherwise it
    reports failure with no token and the error output.  It raises
    [IndexError] or [ValueError] only on a line beginning with [Token]
    that has fewer than three fields or a third field that is no
    number. *)
Theorem host_tokens_in_order (world : World) (NODETOOL host : option string)
    (l : log) :
  let info := host_listing world NODETOOL host l in
  let accepted :=
    ((returncode info =? 0) && negb (Str.not_found "Token" (stdout info)))%bool in
  (forall ok toks err l',
     get_host_tokens world NODETOOL host l = (Ret (ok, toks, err), l') ->
     ok = accepted /\
     (ok = true -> toks = host_listed_tokens (stdout info) /\ err = None) /\
     (ok = false -> toks = [] /\ err = Some (stderr info))) /\
  (forall e l',
     get_host_tokens world NODETOOL host l = (Exc e, l') ->
     accepted = true /\
     exists line,
       In line (Str.split_on Str.newline (stdout info)) /\
       Str.startswith "Token" line = true /\
       ((e = IndexError /\ nth_error (Str.split line) 2 = None) \/
        (e = ValueError /\
         exists p, nth_error (Str.split line) 2 = Some p /\ Str.long p = None))).
Proof.
  cbv zeta. rewrite get_host_tokens_unfold. cbv zeta.
  set (info := host_listing world NODETOOL host l).
  pose proof (host_rows_spec (Str.split_on Str.newline (stdout info)) []) as Hr.
  assert (Hfail : forall ok toks err l' (l0 : log),
             (Ret (false, @nil Z, Some (stderr info)), l0)
             = (Ret (ok, toks, err), l') ->
             ok = false /\
             (ok = true -> toks = host_listed_tokens (stdout info) /\ err = None) /\
             (ok = false -> toks = [] /\ err = Some (stderr info))).
  { intros ok toks err l' l0 E. injection E as <- <- <- _.
    split; [reflexivity |]. split; [discriminate | auto]. }
  destruct (returncode info =? 0); destruct (Str.not_found "Token" (stdout info));
    simpl; split; try (intros ok toks err l' E; now apply (Hfail _ _ _ _ _ E));
    try (intros e l' E; discriminate E).
  - intros ok toks err l' E.
    destruct (host_rows _ []) as [e | toks']; [discriminate E |].
    injection E as <- <- <- _. split; [reflexivity |].
    split; [| discriminate]. intros _. split; [exact Hr | reflexivity].
  - intros e l' E.
    destruct (host_rows _ []) as [e' | toks']; [| discriminate E].
    injection E as <- _. split; [reflexivity | exact Hr].
Qed.

Lemma host_tokens_in_order_witness :
  get_host_tokens (Sample.calm Sample.ring_out) None None []
  = (Ret (true, [20], None),
     [Log HostTokensFound; Wait (mkCommandResult 0 "nodetool info -T") 0;
      Spawn (mkCommandResult 0 "nodetool info -T")]) /\
  [20] = host_listed_tokens
           (stdout (host_listing (Sample.calm Sample.ring_out) None None [])).
Proof.
  split; [reflexivity |].
  destruct (host_tokens_in_order (Sample.calm Sample.ring_out) None None [])
    as [H _].
  destruct (H true [20] None _ eq_refl) as (_ & H1 & _).
  exact (proj1 (H1 eq_refl)).
Defined.

(** ** Edge cases of the run *)

(** The loop of [get_ring_tokens] raises exactly when a kept row has no
    number in its last field. *)
Lemma ring_rows_raises (lines : list string) :
  forall tokens,
    (exists e, ring_rows lines tokens = inl e) <->
    exists line,
      In line lines /\ accepted_row line = true /\
      Str.long (last (Str.split line) EmptyString) = None.
Proof.
  induction lines as [| line rest IH]; intros tokens; cbn [ring_rows].
  - split; [intros (e & E); discriminate E | intros (line & [] & _)].
  - fold (accepted_row line).
    destruct (accepted_row line) eqn:Ha.
    + destruct (Str.long (last (Str.split line) EmptyString)) as [t |] eqn:Ht.
      * rewrite IH. split.
        -- intros (line' & Hin & H). exists line'. split; [now apply in_cons | exact H].
        -- intros (line' & [<- | Hin] & Ha' & Ht'); [congruence |].
           exists line'. split; trivial. split; trivial.
      * split; [| eauto]. intros _. exists line. split; [apply in_eq |]. split; trivial.
    + rewrite IH. split.
      * intros (line' & Hin & H). exists line'. split; [now apply in_cons | exact H].
      * intros (line' & [<- | Hin] & Ha' & Ht'); [congruence |].
        exists line'. split; trivial. split; trivial.
Qed.

(** X12. When the ring listing is accepted and the host listing is
    accepted with no token (no line begins with [Token] although the output
    contains it), [repair] returns [True] at once, and [main], given a
    keyspace and having set up logging without error, exits with 0: no
    repair is spawned, the log ends with the host listing. *)
Theorem no_host_token_no_repair (world : World) (LOG_LEVEL : option string)
    (fuel : nat) (o : options) (l l1 l2 : log) (ring_tokens : list Z)
    (er eh : option string) :
  Str.truthy (opt_keyspace o) = true ->
  logging_configured LOG_LEVEL o = true ->
  get_ring_tokens world (opt_nodetool o) (opt_host o) l
  = (Ret (true, ring_tokens, er), l1) ->
  get_host_tokens world (opt_nodetool o) (opt_host o) l1
  = (Ret (true, [], eh), l2) ->
  repair world (opt_nodetool o) (Str.get (opt_keyspace o)) (opt_cf o)
         (opt_host o) (opt_repair_concurrency o) (opt_all_dcs o) fuel
         (opt_steps o) l = (Ret true, l2) /\
  main world LOG_LEVEL fuel o l = (Ret 0, l2) /\
  l2 = Log HostTokensFound
       :: Wait (info_proc (opt_nodetool o) (opt_host o) l1) 0
       :: Spawn (info_proc (opt_nodetool o) (opt_host o) l1) :: l1.
Proof.
  intros Hk Hc Er Eh.
  assert (R : repair world (opt_nodetool o) (Str.get (opt_keyspace o)) (opt_cf o)
                (opt_host o) (opt_repair_concurrency o) (opt_all_dcs o) fuel
                (opt_steps o) l = (Ret true, l2)).
  { rewrite repair_unfold, Er, Eh. reflexivity. }
  split; [exact R |]. split; [rewrite main_unfold, Hc, R; trivial |].
  rewrite get_host_tokens_unfold in Eh. cbv zeta in Eh.
  destruct (Z.eqb_spec (returncode (host_listing world (opt_nodetool o)
                                      (opt_host o) l1)) 0) as [E0 | _];
    [| discriminate Eh].
  simpl in Eh. destruct (Str.not_found "Token" _); [discriminate Eh |].
  destruct (host_rows _ []); [discriminate Eh |].
  injection Eh as _ _ <-. now rewrite E0.
Qed.

Lemma no_host_token_no_repair_witness :
  main Sample.indented_token None 10 (Sample.opts (Some "ks"%string)) []
  = (Ret 0,
     [Log HostTokensFound; Wait (mkCommandResult 1 "nodetool info -T") 0;
      Spawn (mkCommandResult 1 "nodetool info -T");
      Log RingTokensFound; Wait (mkCommandResult 0 "nodetool ring") 0;
      Spawn (mkCommandResult 0 "nodetool ring"); Log RunningRing]).
Proof.
  apply (no_host_token_no_repair Sample.indented_token None 10
           (Sample.opts (Some "ks"%string)) []
           [Log RingTokensFound; Wait (mkCommandResult 0 "nodetool ring") 0;
            Spawn (mkCommandResult 0 "nodetool ring"); Log RunningRing]
           _ [10; 20; 30] None None); reflexivity.
Defined.

(** X13. When the ring listing is accepted with no token and the host
    listing shows a token, [get_range_termination] raises [IndexError]:
    [repair] ends with that uncaught exception before any repair is
    spawned, and so does [main], given a keyspace and having set up logging
    without error: it exits neither with 0 nor with 2. *)
Theorem empty_ring_crashes (world : World) (LOG_LEVEL : option string)
    (fuel : nat) (o : options) (l l1 l2 : log) (t : Z) (host_tokens : list Z)
    (er eh : option string) :
  Str.truthy (opt_keyspace o) = true ->
  logging_configured LOG_LEVEL o = true ->
  get_ring_tokens world (opt_nodetool o) (opt_host o) l = (Ret (true, [], er), l1) ->
  get_host_tokens world (opt_nodetool o) (opt_host o) l1
  = (Ret (true, t :: host_tokens, eh), l2) ->
  repair world (opt_nodetool o) (Str.get (opt_keyspace o)) (opt_cf o)
         (opt_host o) (opt_repair_concurrency o) (opt_all_dcs o) fuel
         (opt_steps o) l = (Exc IndexError, l2) /\
  main world LOG_LEVEL fuel o l = (Exc IndexError, l2).
Proof.
  intros Hk Hc Er Eh.
  assert (R : repair world (opt_nodetool o) (Str.get (opt_keyspace o)) (opt_cf o)
                (opt_host o) (opt_repair_concurrency o) (opt_all_dcs o) fuel
                (opt_steps o) l = (Exc IndexError, l2)).
  { rewrite repair_unfold, Er, Eh, repair_tokens_cons, repair_token_unfold.
    reflexivity. }
  split; [exact R |]. rewrite main_unfold, Hc, R; trivial.
Qed.

Lemma empty_ring_crashes_witness :
  main Sample.empty_ring (Some "DEBUG"%string) 10
       (Sample.opts (Some "ks"%string)) []
  = (Exc IndexError,
     [Log HostTokensFound; Wait (mkCommandResult 1 "nodetool info -T") 0;
      Spawn (mkCommandResult 1 "nodetool info -T");
      Log RingTokensFound; Wait (mkCommandResult 0 "nodetool ring") 0;
      Spawn (mkCommandResult 0 "nodetool ring"); Log RunningRing]).
Proof.
  apply (empty_ring_crashes Sample.empty_ring (Some "DEBUG"%string) 10
           (Sample.opts (Some "ks"%string)) []
           [Log RingTokensFound; Wait (mkCommandResult 0 "nodetool ring") 0;
            Spawn (mkCommandResult 0 "nodetool ring"); Log RunningRing]
           _ 20 [] None None); reflexivity.
Defined.

(** X14. A ring listing that exits with 0 makes [get_ring_tokens] raise
    (a [ValueError], from [long]) exactly when one of its rows after the
    header has eight fields, is not joining, and has no number in its last
    field; [repair] then ends with that exception, the ring listing being
    the only process spawned, instead of returning [False]. *)
Theorem unreadable_ring_row_raises (world : World) (NODETOOL : option string)
    (keyspace : string) (columnfamily host : option string)
    (repair_concurrency : Z) (all_dcs : bool) (fuel : nat) (start_steps : Z)
    (l : log) :
  let ring := ring_listing world NODETOOL host l in
  let l1 := Log RingTokensFound
            :: Wait (ring_proc NODETOOL host l) (returncode ring)
            :: Spawn (ring_proc NODETOOL host l) :: Log RunningRing :: l in
  returncode ring = 0 ->
  ((exists line,
      In line (skipn 6 (Str.split_on Str.newline (stdout ring))) /\
      accepted_row line = true /\
      Str.long (last (Str.split line) EmptyString) = None) <->
   get_ring_tokens world NODETOOL host l = (Exc ValueError, l1)) /\
  (get_ring_tokens world NODETOOL host l = (Exc ValueError, l1) ->
   repair world NODETOOL keyspace columnfamily host repair_concurrency all_dcs
          fuel start_steps l = (Exc ValueError, l1)).
Proof.
  cbv zeta. intros Hrc. split.
  - rewrite <- (ring_rows_raises _ []), get_ring_tokens_unfold. cbv zeta.
    rewrite Hrc. simpl (0 =? 0).  cbv iota.
    assert (V : forall lines tokens e, ring_rows lines tokens = inl e -> e = ValueError).
    { induction lines as [| line rest IH]; intros tokens e; cbn [ring_rows];
        [discriminate |].
      destruct (_ && _)%bool; [| apply IH].
      destruct (Str.long _); [apply IH | now intros [= <-]]. }
    destruct (ring_rows _ []) as [e | toks] eqn:E.
    + rewrite (V _ _ _ E). split; [reflexivity | eauto].
    + split; [intros (e & He); discriminate He | discriminate].
  - intros E. rewrite repair_unfold, E. reflexivity.
Qed.

Lemma unreadable_ring_row_raises_witness :
  repair Sample.odd_row None "ks" None None 2 false 10 5 []
  = (Exc ValueError,
     [Log RingTokensFound; Wait (mkCommandResult 0 "nodetool ring") 0;
      Spawn (mkCommandResult 0 "nodetool ring"); Log RunningRing]).
Proof.
  apply (unreadable_ring_row_raises Sample.odd_row None "ks" None None 2 false
           10 5 []); reflexivity.
Defined.

(** ** Retrying for ever, and dispatching without a barrier *)

(** X15. An operation whose command line fails at every attempt is
    retried for ever: whatever the fuel, [collect_results] has not returned
    when it is spent, having recorded one failure and one retry of the
    command line for each unit of it, and no success. *)
Theorem permanent_failure_never_returns (world : World) (c : string) :
  (forall l h, cmd h = c -> returncode (world l h) <> 0) ->
  forall fuel h l,
    cmd h = c ->
    exists l',
      collect_results world fuel [h] l = (OutOfFuel, l') /\
      failures c l' = (failures c l + fuel)%nat /\
      retries c l' = (retries c l + fuel)%nat /\
      successes c l' = successes c l.
Proof.
  intros Hw. induction fuel as [| fuel IH]; intros h l Hh.
  - exists l. split; [reflexivity |]. lia.
  - rewrite collect_results_cons, collect_pass_cons. cbv zeta.
    set (l0 := Log (Collecting (List.length [h])) :: l).
    pose proof (Hw l0 h Hh) as Hrc. apply Z.eqb_neq in Hrc. rewrite Hrc.
    simpl collect_pass. unfold ret.
    match goal with
    | |- context [collect_results world fuel [?h'] ?l1] =>
        destruct (IH h' l1 Hh) as (l' & E & G1 & G2 & G3)
    end.
    exists l'. split; [exact E |].
    subst l0. pose proof (String.eqb_refl c) as Hc.
    rewrite <- Hh in Hc at 1. rewrite Hh in *.
    pose proof (String.eqb_refl c) as Hcc.
    tally. lia.
Qed.

Lemma permanent_failure_never_returns_witness :
  exists l',
    collect_results Sample.broken 4 [mkCommandResult 0 "nodetool repair ks"] []
    = (OutOfFuel, l') /\
    failures "nodetool repair ks" l' = (0 + 4)%nat /\
    retries "nodetool repair ks" l' = (0 + 4)%nat /\
    successes "nodetool repair ks" l' = 0%nat.
Proof.
  apply (permanent_failure_never_returns Sample.broken "nodetool repair ks").
  - intros l h _. discriminate.
  - reflexivity.
Defined.

Lemma spawn_all_counts (NODETOOL : option string) (keyspace : string)
    (columnfamily host : option string) (all_dcs : bool) (fmt : Z -> string)
    (pairs : list (Z * Z)) :
  forall steps crs l,
    let r := spawn_all NODETOOL keyspace columnfamily host all_dcs fmt pairs
                       steps crs l in
    List.length (fst r) = (List.length crs + List.length pairs)%nat /\
    inflight (snd r) = inflight l + Z.of_nat (List.length pairs) /\
    count (fun e => match e with Wait _ _ => true | _ => false end) (snd r)
    = count (fun e => match e with Wait _ _ => true | _ => false end) l.
Proof.
  induction pairs as [| [a b] rest IH]; intros steps crs l; cbn [spawn_all].
  - cbv zeta. simpl. split; [lia |]. split; [lia | reflexivity].
  - cbv zeta in *.
    match goal with
    | |- context [spawn_all _ _ _ _ _ _ rest ?s ?k ?m] =>
        destruct (IH s k m) as (H1 & H2 & H3)
    end.
    rewrite H1, H2, H3, length_app. simpl. split; [lia |]. split; [lia | reflexivity].
Qed.

(** X16. With a concurrency of 0 or less the test [processes ==
    repair_concurrency] never holds: the operations of all the sub-ranges
    of an owned range are spawned one after the other with no wait in
    between, and collected together after the last one; as many processes
    are then in flight as the range has sub-ranges. *)
Theorem no_barrier_without_concurrency (world : World)
    (NODETOOL : option string) (keyspace : string)
    (columnfamily host : option string) (repair_concurrency : Z)
    (all_dcs : bool) (fuel : nat) (fmt : Z -> string) (n : nat) :
  repair_concurrency <= 0 ->
  forall g pairs crs processes steps l,
    0 <= processes ->
    drain SubRange.next n g = (pairs, Exhausted) ->
    let all := spawn_all NODETOOL keyspace columnfamily host all_dcs fmt pairs
                         steps crs l in
    dispatch world NODETOOL keyspace columnfamily host repair_concurrency
             all_dcs fuel n fmt g crs processes steps l
    = collect_results world fuel (fst all) (snd all) /\
    List.length (fst all) = (List.length crs + List.length pairs)%nat /\
    inflight (snd all) = inflight l + Z.of_nat (List.length pairs).
Proof.
  intros Hc. cbv zeta.
  induction n as [| n IH]; intros g pairs crs p steps l Hp Hd;
    (split; [| split; apply spawn_all_counts]).
  - simpl in Hd. destruct (SubRange.next g) as [ab g' | | e] eqn:Hg;
      try discriminate Hd.
    injection Hd as <-. now rewrite dispatch_stop.
  - rewrite drain_S in Hd.
    destruct (SubRange.next g) as [[a b] g' | | e] eqn:Hg; try discriminate Hd.
    + destruct (drain SubRange.next n g') as [rest e] eqn:Hr.
      injection Hd as <- ->.
      erewrite dispatch_yield by exact Hg. cbv zeta.
      destruct (Z.eqb_spec (p + 1) repair_concurrency) as [E | _]; [lia |].
      cbn [spawn_all]. apply (IH g' rest); [lia | exact Hr].
    + injection Hd as <-. now rewrite dispatch_stop.
Qed.

Lemma no_barrier_without_concurrency_witness :
  let all := spawn_all None "ks" None None false format_md5
                       [(20, 25); (25, 30)] 2 [] [] in
  dispatch (Sample.calm Sample.ring_out) None "ks" None None 0 false 5 3
           format_md5 (SubRange.Entry 20 30 2) [] 0 2 []
  = collect_results (Sample.calm Sample.ring_out) 5 (fst all) (snd all) /\
  List.length (fst all) = (List.length (@nil CommandResult) + 2)%nat /\
  inflight (snd all) = inflight [] + 2.
Proof.
  apply (no_barrier_without_concurrency (Sample.calm Sample.ring_out) None "ks"
           None None 0 false 5 format_md5 3 ltac:(lia)
           (SubRange.Entry 20 30 2) [(20, 25); (25, 30)] [] 0 2 []);
    [lia | reflexivity].
Defined.

(** ** The run when every process succeeds *)

(** The fuel that exhausts the generator for [steps >= 1]. *)
Lemma partition_exhausts (start stop steps : Z) (fuel : nat) :
  1 <= steps -> (Z.to_nat (Z.abs (stop - start)) + 3 <= fuel)%nat ->
  exists l, get_sub_range_generator fuel start stop steps = (l, Exhausted).
Proof.
  intros Hs Hf. destruct (Z.lt_ge_cases (start + steps + 1) stop) as [Hg | Hd].
  - eexists. apply partition_general; trivial.
    destruct (general_case_arith start stop steps Hs Hg) as (Hi & _ & Hq & Hqs & _).
    nia.
  - destruct fuel as [| fuel]; [lia |]. eexists. now apply degenerate_single.
Qed.

Section Calm.

Variable world : World.
Hypothesis calm : forall l h, returncode (world l h) = 0.

Lemma collect_pass_calm (pending2 : list CommandResult) :
  forall pending l, exists l',
    collect_pass world pending2 pending l = (Ret pending, l').
Proof.
  induction pending2 as [| h rest IH]; intros pending l.
  - eexists. reflexivity.
  - rewrite collect_pass_cons. cbv zeta. rewrite calm. apply IH.
Qed.

Lemma collect_results_calm (fuel : nat) (pending : list CommandResult) (l : log) :
  (1 <= fuel)%nat ->
  exists l', collect_results world fuel pending l = (Ret tt, l').
Proof.
  intros Hf. destruct pending as [| h p].
  - rewrite collect_results_nil. eauto.
  - destruct fuel as [| fuel]; [lia |]. rewrite collect_results_cons.
    destruct (collect_pass_calm (h :: p) []
                (Log (Collecting (List.length (h :: p))) :: l)) as (l1 & E).
    rewrite E, collect_results_nil. eauto.
Qed.

Variable NODETOOL : option string.
Variables (keyspace : string) (columnfamily host : option string).
Variables (repair_concurrency : Z) (all_dcs : bool) (fuel : nat).
Hypothesis fuel_positive : (1 <= fuel)%nat.

Lemma dispatch_calm (n : nat) :
  forall fmt g pairs crs p steps l,
    drain SubRange.next n g = (pairs, Exhausted) ->
    exists l',
      dispatch world NODETOOL keyspace columnfamily host repair_concurrency
               all_dcs fuel n fmt g crs p steps l = (Ret tt, l').
Proof.
  induction n as [| n IH]; intros fmt g pairs crs p steps l Hd.
  - simpl in Hd. destruct (SubRange.next g) as [ab g' | | e] eqn:Hg;
      try discriminate Hd.
    rewrite dispatch_stop by exact Hg. now apply collect_results_calm.
  - rewrite drain_S in Hd.
    destruct (SubRange.next g) as [[a b] g' | | e] eqn:Hg; try discriminate Hd.
    + destruct (drain SubRange.next n g') as [rest e] eqn:Hr.
      injection Hd as _ ->.
      erewrite dispatch_yield by exact Hg. cbv zeta.
      destruct (_ =? repair_concurrency).
      * match goal with
        | |- context [collect_results world fuel ?k ?m] =>
            destruct (collect_results_calm fuel k m fuel_positive) as (l3 & E)
        end.
        rewrite E. now apply (IH _ _ rest).
      * now apply (IH _ _ rest).
    + rewrite dispatch_stop by exact Hg. now apply collect_results_calm.
Qed.

(** X17. When every process exits with 0, [steps >= 1], both listings are
    accepted, the ring is not empty, and the fuel exceeds the width of every
    owned range by 3, [repair] returns [True]. *)
Theorem repair_completes (start_steps : Z) (l l1 l2 : log)
    (ring_tokens host_tokens : list Z) (er eh : option string) :
  1 <= start_steps ->
  get_ring_tokens world NODETOOL host l = (Ret (true, ring_tokens, er), l1) ->
  get_host_tokens world NODETOOL host l1 = (Ret (true, host_tokens, eh), l2) ->
  ring_tokens <> [] ->
  (forall t r, In t host_tokens -> In r ring_tokens ->
     (Z.to_nat (Z.abs (r - t)) + 3 <= fuel)%nat) ->
  exists l',
    repair world NODETOOL keyspace columnfamily host repair_concurrency all_dcs
           fuel start_steps l = (Ret true, l').
Proof.
  intros Hs Er Eh Hne Hfuel. rewrite repair_unfold, Er, Eh.
  assert (T : forall hts total num l0,
             (forall t, In t hts -> In t host_tokens) ->
             exists l',
               repair_tokens world NODETOOL keyspace columnfamily host
                             repair_concurrency all_dcs fuel start_steps
                             ring_tokens total num hts l0 = (Ret tt, l')).
  { induction hts as [| t rest IH]; intros total num l0 Hin.
    - eexists. reflexivity.
    - rewrite repair_tokens_cons, repair_token_unfold.
      destruct (get_range_termination t ring_tokens) as [r |] eqn:Et;
        [| apply (proj1 (range_termination_member t ring_tokens)) in Et;
           contradiction].
      destruct (proj2 (range_termination_member t ring_tokens) r Et)
        as [Hr _].
      cbv zeta.
      destruct (partition_exhausts t r start_steps fuel Hs)
        as (pairs & Hp); [apply Hfuel; [apply Hin; apply in_eq | exact Hr] |].
      match goal with
      | |- context [dispatch _ _ _ _ _ _ _ _ _ ?f ?g ?k ?p ?s ?m] =>
          destruct (dispatch_calm fuel f g pairs k p s m Hp) as (l3 & E)
      end.
      rewrite E. apply IH. intros x Hx. apply Hin. now apply in_cons. }
  destruct (T host_tokens (List.length host_tokens) 0%nat l2 (fun t H => H))
    as (l' & E).
  rewrite E. eauto.
Qed.

End Calm.

Lemma repair_completes_witness :
  exists l',
    repair (Sample.calm Sample.ring_out) None "ks" None None 2 false 13 5 []
    = (Ret true, l').
Proof.
  apply (repair_completes (Sample.calm Sample.ring_out)
           ltac:(intros l h; unfold Sample.calm;
                 destruct (String.eqb (cmd h) "nodetool ring");
                 [reflexivity |];
                 destruct (String.eqb (cmd h) "nodetool info -T"); reflexivity)
           None "ks" None None 2 false 13 ltac:(lia) 5 []
           [Log RingTokensFound; Wait (mkCommandResult 0 "nodetool ring") 0;
            Spawn (mkCommandResult 0 "nodetool ring"); Log RunningRing]
           [Log HostTokensFound; Wait (mkCommandResult 1 "nodetool info -T") 0;
            Spawn (mkCommandResult 1 "nodetool info -T");
            Log RingTokensFound; Wait (mkCommandResult 0 "nodetool ring") 0;
            Spawn (mkCommandResult 0 "nodetool ring"); Log RunningRing]
           [10; 20; 30] [20] None None);
    [lia | reflexivity | reflexivity | discriminate |].
  intros t r [<- | []] [<- | [<- | [<- | []]]]; apply Nat.leb_le; reflexivity.
Defined.

(** ** The order of dispatch *)

Lemma steps_logged_cons (e : event) (l : log) :
  steps_logged (e :: l) = (steps_logged l ++ step_of e)%list.
Proof.
  unfold steps_logged. simpl. rewrite flat_map_app. simpl.
  now rewrite app_nil_r.
Qed.

Lemma collect_pass_steps (world : World) (pending2 : list CommandResult) :
  forall pending l pending' l',
    collect_pass world pending2 pending l = (Ret pending', l') ->
    steps_logged l' = steps_logged l.
Proof.
  induction pending2 as [| h rest IH]; intros pending l pending' l' E.
  - simpl in E. now injection E as _ <-.
  - rewrite collect_pass_cons in E. cbv zeta in E.
    destruct (returncode (world l h) =? 0); apply IH in E; rewrite E;
      rewrite !steps_logged_cons; simpl; now rewrite ?app_nil_r.
Qed.

Lemma collect_results_steps (world : World) (fuel : nat) :
  forall pending l r l',
    collect_results world fuel pending l = (r, l') ->
    steps_logged l' = steps_logged l.
Proof.
  induction fuel as [| fuel IH]; intros [| h p] l r l' E;
    try (rewrite collect_results_nil in E; now injection E as _ <-).
  - now injection E as _ <-.
  - rewrite collect_results_cons in E.
    destruct (collect_pass_returns world (h :: p) []
                (Log (Collecting (List.length (h :: p))) :: l))
      as (pending' & l1 & E1).
    rewrite E1 in E. apply IH in E. apply collect_pass_steps in E1.
    rewrite E, E1, steps_logged_cons. simpl. now rewrite app_nil_r.
Qed.

(** X18. When the dispatch of an owned range returns, the [Step] messages
    added to the log are those of the pairs of the partition, each once and
    in the order the generator yields them, formatted, and labelled
    [steps], [steps - 1], ... downwards; retries add none. *)
Theorem dispatch_in_order (world : World) (NODETOOL : option string)
    (keyspace : string) (columnfamily host : option string)
    (repair_concurrency : Z) (all_dcs : bool) (fuel : nat) (n : nat) :
  forall fmt g crs processes steps l l',
    dispatch world NODETOOL keyspace columnfamily host repair_concurrency
             all_dcs fuel n fmt g crs processes steps l = (Ret tt, l') ->
    exists pairs,
      drain SubRange.next n g = (pairs, Exhausted) /\
      steps_logged l' = (steps_logged l ++ countdown fmt pairs steps)%list.
Proof.
  induction n as [| n IH]; intros fmt g crs p steps l l' E;
    destruct (SubRange.next g) as [[a b] g' | | e] eqn:Hg;
    try (rewrite dispatch_stop in E by exact Hg;
         exists []; split; [now apply drain_stop |];
         apply collect_results_steps in E; rewrite E; simpl;
         now rewrite app_nil_r);
    try (erewrite dispatch_raise in E by exact Hg; discriminate E).
  - erewrite dispatch_no_fuel in E by exact Hg. discriminate E.
  - erewrite dispatch_yield in E by exact Hg. cbv zeta in E.
    rewrite drain_S, Hg.
    destruct (p + 1 =? repair_concurrency).
    + match type of E with
      | context [collect_results world fuel ?k ?m] =>
          destruct (collect_results world fuel k m) as [[[] | e |] l3] eqn:Ec;
            try discriminate E
      end.
      apply collect_results_steps in Ec.
      apply IH in E as (pairs & Hd & Hl). rewrite Hd.
      exists ((a, b) :: pairs). split; [reflexivity |].
      rewrite Hl, Ec, !steps_logged_cons. simpl.
      now rewrite app_nil_r, <- app_assoc.
    + apply IH in E as (pairs & Hd & Hl). rewrite Hd.
      exists ((a, b) :: pairs). split; [reflexivity |].
      rewrite Hl, !steps_logged_cons. simpl.
      now rewrite app_nil_r, <- app_assoc.
Qed.

Lemma dispatch_in_order_witness :
  exists pairs,
    drain SubRange.next 3 (SubRange.Entry 20 30 2) = (pairs, Exhausted) /\
    steps_logged
      (snd (dispatch (Sample.calm Sample.ring_out) None "ks" None None 1 false
                     5 3 format_md5 (SubRange.Entry 20 30 2) [] 0 2 []))
    = (steps_logged [] ++ countdown format_md5 pairs 2)%list.
Proof.
  apply (dispatch_in_order (Sample.calm Sample.ring_out) None "ks" None None 1
           false 5 3 format_md5 (SubRange.Entry 20 30 2) [] 0 2 []).
  reflexivity.
Defined.

(** ** What is spawned *)

Lemma spawned_cmds_cons (e : event) (l : log) :
  spawned_cmds (e :: l) = (spawned_cmds l ++ spawn_of e)%list.
Proof.
  unfold spawned_cmds. simpl. rewrite flat_map_app. simpl.
  now rewrite app_nil_r.
Qed.

Section Allowed.

Variable world : World.
Variable NODETOOL : option string.
Variables (keyspace : string) (columnfamily host : option string).
Variables (repair_concurrency : Z) (all_dcs : bool) (fuel : nat).

Local Abbreviation allowed' := (allowed NODETOOL keyspace columnfamily host all_dcs).
Local Abbreviation fine l := (forall c, In c (spawned_cmds l) -> allowed' c).
Local Abbreviation fine_handles hs :=
  (forall h : CommandResult, In h hs -> allowed' (cmd h)).

Lemma fine_event (e : event) (l : log) :
  fine l -> (forall c, In c (spawn_of e) -> allowed' c) -> fine (e :: l).
Proof.
  intros Hl He c. rewrite spawned_cmds_cons, in_app_iff. intros [H | H]; auto.
Qed.

Lemma collect_pass_fine (pending2 : list CommandResult) :
  forall pending l pending' l',
    collect_pass world pending2 pending l = (Ret pending', l') ->
    fine l -> fine_handles pending2 -> fine_handles pending ->
    fine l' /\ fine_handles pending'.
Proof.
  induction pending2 as [| h rest IH]; intros pending l pending' l' E Hl H2 H1.
  - simpl in E. injection E as <- <-. auto.
  - rewrite collect_pass_cons in E. cbv zeta in E.
    assert (Hh : allowed' (cmd h)) by (apply H2; apply in_eq).
    assert (Hr : fine_handles rest) by (intros x Hx; apply H2; now apply in_cons).
    destruct (returncode (world l h) =? 0).
    + apply (IH _ _ _ _ E); trivial.
      refine (fine_event _ _ _ _); [exact Hl | intros c []].
    + apply (IH _ _ _ _ E); trivial.
      * refine (fine_event _ _ _ _); [| intros c [<- | []]; exact Hh].
        do 4 (refine (fine_event _ _ _ _); [| intros c []]). exact Hl.
      * intros x Hx. apply in_app_iff in Hx as [Hx | [<- | []]];
          [now apply H1 | exact Hh].
Qed.

Lemma collect_results_fine (n : nat) :
  forall pending l r l',
    collect_results world n pending l = (r, l') ->
    fine l -> fine_handles pending -> fine l'.
Proof.
  induction n as [| n IH]; intros [| h p] l r l' E Hl Hp;
    try (rewrite collect_results_nil in E; now injection E as _ <-).
  - now injection E as _ <-.
  - rewrite collect_results_cons in E.
    destruct (collect_pass_returns world (h :: p) []
                (Log (Collecting (List.length (h :: p))) :: l))
      as (pending' & l1 & E1).
    rewrite E1 in E.
    destruct (collect_pass_fine _ _ _ _ _ E1) as [G1 G2]; trivial.
    + refine (fine_event _ _ _ _); [exact Hl | intros c []].
    + intros x [].
    + now apply (IH _ _ _ _ E).
Qed.

Lemma dispatch_fine (n : nat) :
  forall fmt g crs p steps l r l',
    dispatch world NODETOOL keyspace columnfamily host repair_concurrency
             all_dcs fuel n fmt g crs p steps l = (r, l') ->
    fine l -> fine_handles crs -> fine l'.
Proof.
  induction n as [| n IH]; intros fmt g crs p steps l r l' E Hl Hc;
    destruct (SubRange.next g) as [[a b] g' | | e] eqn:Hg;
    try (rewrite dispatch_stop in E by exact Hg;
         now apply (collect_results_fine _ _ _ _ _ E));
    try (erewrite dispatch_raise in E by exact Hg; now injection E as _ <-).
  - erewrite dispatch_no_fuel in E by exact Hg. now injection E as _ <-.
  - erewrite dispatch_yield in E by exact Hg. cbv zeta in E.
    set (l1 := Log (Step steps (fmt a) (fmt b) keyspace) :: l) in *.
    set (h := mkCommandResult (spawned l1) _) in *.
    assert (Hh : allowed' (cmd h)).
    { right. right. exists (fmt a), (fmt b). reflexivity. }
    assert (H2 : fine (Spawn h :: l1)).
    { refine (fine_event _ _ _ _); [refine (fine_event _ _ _ _); [exact Hl | intros c []] |].
      intros c [<- | []]. exact Hh. }
    assert (H3 : fine_handles (crs ++ [h])).
    { intros x Hx. apply in_app_iff in Hx as [Hx | [<- | []]]; auto. }
    destruct (p + 1 =? repair_concurrency).
    + destruct (collect_results world fuel (crs ++ [h]) (Spawn h :: l1))
        as [res l3] eqn:Ec.
      pose proof (collect_results_fine _ _ _ _ _ Ec H2 H3) as G.
      destruct res as [[] | e |].
      * apply (IH _ _ _ _ _ _ _ _ E G). intros x [].
      * now injection E as _ <-.
      * now injection E as _ <-.
    + now apply (IH _ _ _ _ _ _ _ _ E H2).
Qed.

Lemma repair_tokens_fine (start_steps : Z) (ring_tokens : list Z) (total : nat)
    (host_token_list : list Z) :
  forall num l r l',
    repair_tokens world NODETOOL keyspace columnfamily host repair_concurrency
                  all_dcs fuel start_steps ring_tokens total num
                  host_token_list l = (r, l') ->
    fine l -> fine l'.
Proof.
  induction host_token_list as [| t rest IH]; intros num l r l' E Hl.
  - now injection E as _ <-.
  - rewrite repair_tokens_cons, repair_token_unfold in E.
    destruct (get_range_termination t ring_tokens) as [term |].
    + cbv zeta in E.
      match type of E with
      | context [dispatch _ _ _ _ _ _ _ _ _ ?f ?g ?k ?p ?s ?m] =>
          destruct (dispatch world NODETOOL keyspace columnfamily host
                      repair_concurrency all_dcs fuel fuel f g k p s m)
            as [res l1] eqn:Ed
      end.
      assert (G : fine l1).
      { refine (dispatch_fine _ _ _ _ _ _ _ _ _ Ed _ _); [| intros x []].
        refine (fine_event _ _ _ _); [exact Hl | intros c []]. }
      destruct res as [[] | e |]; [now apply (IH _ _ _ _ E) | |];
        now injection E as _ <-.
    + now injection E as _ <-.
Qed.

(** X19. Whatever the outcome of [repair] (a status, an exception, or a
    run still going on when the fuel is spent), the only command lines it
    has spawned are the ring listing, the host listing, and repairs of some
    range with the keyspace, column family, host and data-centre option it
    was given; retries included. *)
Theorem only_listings_and_repairs (start_steps : Z) :
  forall c,
    In c (spawned_cmds
            (snd (repair world NODETOOL keyspace columnfamily host
                         repair_concurrency all_dcs fuel start_steps []))) ->
    c = ring_cmd NODETOOL host \/ c = info_cmd NODETOOL host \/
    exists start stop,
      c = repair_range_cmd NODETOOL keyspace start stop columnfamily host all_dcs.
Proof.
  rewrite repair_unfold, get_ring_tokens_unfold. cbv zeta.
  set (h := ring_proc NODETOOL host []).
  set (o := ring_listing world NODETOOL host []).
  assert (H1 : fine (Wait h (returncode o) :: Spawn h :: Log RunningRing :: [])).
  { repeat (refine (fine_event _ _ _ _); [| simpl; try (intros c []; fail)]).
    - intros c [].
    - intros c [<- | []]. now left. }
  destruct (returncode o =? 0).
  2:{ simpl snd. refine (fine_event _ _ _ _); [exact H1 | intros c []]. }
  destruct (ring_rows _ []) as [e | tokens].
  { simpl snd. refine (fine_event _ _ _ _); [exact H1 | intros c []]. }
  set (l1 := Log RingTokensFound :: _).
  assert (H2 : fine l1) by (refine (fine_event _ _ _ _); [exact H1 | intros c []]).
  rewrite get_host_tokens_unfold. cbv zeta.
  set (h2 := info_proc NODETOOL host l1).
  set (o2 := host_listing world NODETOOL host l1).
  assert (H3 : fine (Wait h2 (returncode o2) :: Spawn h2 :: l1)).
  { refine (fine_event _ _ _ _); [| intros c []]. refine (fine_event _ _ _ _); [exact H2 |].
    intros c [<- | []]. right. now left. }
  destruct (negb (returncode o2 =? 0) || Str.not_found "Token" (stdout o2))%bool.
  { simpl snd. do 2 (refine (fine_event _ _ _ _); [| intros c []]). exact H3. }
  destruct (host_rows _ []) as [e | host_token_list].
  { simpl snd. refine (fine_event _ _ _ _); [exact H3 | intros c []]. }
  set (l2 := Log HostTokensFound :: _).
  assert (H4 : fine l2) by (refine (fine_event _ _ _ _); [exact H3 | intros c []]).
  destruct (repair_tokens world NODETOOL keyspace columnfamily host
              repair_concurrency all_dcs fuel start_steps (sorted tokens)
              (List.length host_token_list) 0%nat host_token_list l2)
    as [r l3] eqn:E.
  pose proof (repair_tokens_fine _ _ _ _ _ _ _ _ E H4) as G.
  destruct r; exact G.
Qed.

End Allowed.

Lemma flaky_cmd_spawned :
  In Sample.flaky_cmd (spawned_cmds (snd Sample.flaky_run)).
Proof.
  vm_compute. repeat (first [left; reflexivity | right]).
Defined.

Lemma only_listings_and_repairs_witness :
  Sample.flaky_cmd = ring_cmd None None \/
  Sample.flaky_cmd = info_cmd None None \/
  exists start stop,
    Sample.flaky_cmd = repair_range_cmd None "ks" start stop None None false.
Proof.
  apply (only_listings_and_repairs Sample.flaky None "ks" None None 2 false 10 5
           Sample.flaky_cmd).
  exact flaky_cmd_spawned.
Defined.

(** * Retries over the whole run *)

Lemma failures_cons_le (c : string) (e : event) (l : log) :
  (failures c l <= failures c (e :: l))%nat.
Proof.
  unfold failures, count. cbn [filter].
  destruct (is_wait_of false c e); simpl; lia.
Qed.

(** The failures of a command line only grow along the log. *)
Ltac later :=
  first [ apply Nat.le_refl
        | eapply Nat.le_trans; [| apply failures_cons_le]; later ].

Section Scripted.

Variable world : World.
Variable N : string -> nat.
Hypothesis world_scripted : scripted world N.

Lemma on_script_nil : on_script N [].
Proof. intros c. unfold failures, successes, count. simpl. lia. Qed.

Lemma on_script_spawn (h : CommandResult) (l : log) :
  on_script N l -> on_script N (Spawn h :: l).
Proof. intros H c. exact (H c). Qed.

Lemma on_script_log (m : message) (l : log) :
  on_script N l -> on_script N (Log m :: l).
Proof. intros H c. exact (H c). Qed.

Lemma on_script_wait (h : CommandResult) (l : log) :
  on_script N l -> on_script N (Wait h (returncode (world l h)) :: l).
Proof.
  intros H c. destruct (H c) as [A B].
  pose proof (world_scripted (cmd h) l h eq_refl) as W.
  unfold failures, successes, count in *. cbn [filter is_wait_of].
  destruct (String.eqb (cmd h) c) eqn:Ec; [| simpl; auto].
  apply String.eqb_eq in Ec. subst c.
  destruct (returncode (world l h) =? 0); symmetry in W; cbn.
  - apply Nat.leb_le in W. lia.
  - apply Nat.leb_gt in W. lia.
Qed.

Lemma collect_pass_scripted (pending2 : list CommandResult) :
  forall pending l j pending' l',
    collect_pass world pending2 pending l = (Ret pending', l') ->
    on_script N l ->
    (forall h, In h pending2 -> (j <= failures (cmd h) l)%nat) ->
    (forall h, In h pending -> (S j <= failures (cmd h) l)%nat) ->
    on_script N l' /\
    (forall h, In h pending' -> (S j <= failures (cmd h) l')%nat).
Proof.
  induction pending2 as [| h rest IH]; intros pending l j pending' l' E Hs H2 H1.
  - simpl in E. injection E as <- <-. auto.
  - rewrite collect_pass_cons in E. cbv zeta in E.
    pose proof (on_script_wait h l Hs) as Hw.
    destruct (returncode (world l h) =? 0) eqn:Hrc.
    + apply (IH _ _ j _ _ E Hw).
      * intros h' Hin. eapply Nat.le_trans; [exact (H2 h' (or_intror Hin)) | later].
      * intros h' Hin. eapply Nat.le_trans; [exact (H1 h' Hin) | later].
    + apply (IH _ _ j _ _ E).
      * apply on_script_spawn. do 3 apply on_script_log. exact Hw.
      * intros h' Hin. eapply Nat.le_trans; [exact (H2 h' (or_intror Hin)) | later].
      * intros h' Hin. apply in_app_or in Hin as [Hin | [<- | []]].
        -- eapply Nat.le_trans; [exact (H1 h' Hin) | later].
        -- cbn [cmd]. specialize (H2 h (or_introl eq_refl)).
           unfold failures, count in *. cbn [filter is_wait_of].
           rewrite String.eqb_refl, Hrc. simpl. lia.
Qed.

Variable K : nat.
Hypothesis script_bounded : forall c, (N c <= K)%nat.

(** Each turn of the [while] of [collect_results] works off one failure of
    every command line still pending: [K + 1] turns are enough. *)
Lemma collect_results_scripted (n : nat) :
  forall pending l j,
    on_script N l ->
    (forall h, In h pending -> (j <= failures (cmd h) l)%nat) ->
    (K < n + j)%nat ->
    exists l', collect_results world n pending l = (Ret tt, l') /\ on_script N l'.
Proof.
  induction n as [| n IH]; intros [| h p] l j Hs Hj Hn;
    try (rewrite collect_results_nil; eauto).
  - specialize (Hj h (or_introl eq_refl)).
    pose proof (proj1 (Hs (cmd h))). pose proof (script_bounded (cmd h)). lia.
  - rewrite collect_results_cons.
    destruct (collect_pass_returns world (h :: p) []
                (Log (Collecting (List.length (h :: p))) :: l))
      as (pending' & l1 & E).
    rewrite E.
    apply (collect_pass_scripted _ _ _ j) in E as [G1 G2].
    + apply (IH pending' l1 (S j) G1 G2). lia.
    + now apply on_script_log.
    + exact Hj.
    + intros h' [].
Qed.

Variable NODETOOL : option string.
Variables (keyspace : string) (columnfamily host : option string).
Variables (repair_concurrency : Z) (all_dcs : bool) (fuel : nat).
Hypothesis fuel_enough : (K < fuel)%nat.

Lemma dispatch_scripted (n : nat) :
  forall fmt g pairs crs p steps l,
    drain SubRange.next n g = (pairs, Exhausted) ->
    on_script N l ->
    exists l',
      dispatch world NODETOOL keyspace columnfamily host repair_concurrency
               all_dcs fuel n fmt g crs p steps l = (Ret tt, l') /\
      on_script N l'.
Proof.
  assert (C : forall crs l, on_script N l ->
              exists l', collect_results world fuel crs l = (Ret tt, l') /\
                         on_script N l').
  { intros crs l Hs. apply (collect_results_scripted fuel crs l 0%nat Hs);
      [intros; lia | lia]. }
  induction n as [| n IH]; intros fmt g pairs crs p steps l Hd Hs.
  - simpl in Hd. destruct (SubRange.next g) as [ab g' | | e] eqn:Hg;
      try discriminate Hd.
    rewrite dispatch_stop by exact Hg. now apply C.
  - rewrite drain_S in Hd.
    destruct (SubRange.next g) as [[a b] g' | | e] eqn:Hg; try discriminate Hd.
    + destruct (drain SubRange.next n g') as [rest e] eqn:Hr.
      injection Hd as _ ->.
      erewrite dispatch_yield by exact Hg. cbv zeta.
      destruct (_ =? repair_concurrency).
      * match goal with
        | |- context [collect_results world fuel ?k ?m] =>
            destruct (C k m) as (l3 & E & G)
        end; [apply on_script_spawn, on_script_log, Hs |].
        rewrite E. now apply (IH _ _ rest).
      * apply (IH _ _ rest); [exact Hr |].
        apply on_script_spawn, on_script_log, Hs.
    + rewrite dispatch_stop by exact Hg. now apply C.
Qed.

Lemma repair_scripted (start_steps : Z) (l1 l2 : log)
    (ring_tokens host_tokens : list Z) (er eh : option string) :
  1 <= start_steps ->
  get_ring_tokens world NODETOOL host [] = (Ret (true, ring_tokens, er), l1) ->
  get_host_tokens world NODETOOL host l1 = (Ret (true, host_tokens, eh), l2) ->
  ring_tokens <> [] ->
  (forall t r, In t host_tokens -> In r ring_tokens ->
     (Z.to_nat (Z.abs (r - t)) + 3 <= fuel)%nat) ->
  exists l',
    repair world NODETOOL keyspace columnfamily host repair_concurrency all_dcs
           fuel start_steps [] = (Ret true, l') /\
    on_script N l'.
Proof.
  intros Hs Er Eh Hne Hfuel. rewrite repair_unfold, Er, Eh.
  assert (S2 : on_script N l2).
  { rewrite get_ring_tokens_unfold in Er. cbv zeta in Er.
    destruct (returncode (ring_listing world NODETOOL host []) =? 0);
      [| discriminate Er].
    destruct (ring_rows _ []); [discriminate Er |]. injection Er as _ _ <-.
    rewrite get_host_tokens_unfold in Eh. cbv zeta in Eh.
    destruct (negb _ || _)%bool; [discriminate Eh |].
    destruct (host_rows _ []); [discriminate Eh |]. injection Eh as _ _ <-.
    apply on_script_log. apply on_script_wait. apply on_script_spawn.
    apply on_script_log. apply on_script_wait. apply on_script_spawn.
    apply on_script_log. apply on_script_nil. }
  assert (T : forall hts total num l0,
             (forall t, In t hts -> In t host_tokens) ->
             on_script N l0 ->
             exists l',
               repair_tokens world NODETOOL keyspace columnfamily host
                             repair_concurrency all_dcs fuel start_steps
                             ring_tokens total num hts l0 = (Ret tt, l') /\
               on_script N l').
  { induction hts as [| t rest IH]; intros total num l0 Hin H0.
    - eexists. split; [reflexivity | exact H0].
    - rewrite repair_tokens_cons, repair_token_unfold.
      destruct (get_range_termination t ring_tokens) as [r |] eqn:Et;
        [| apply (proj1 (range_termination_member t ring_tokens)) in Et;
           contradiction].
      destruct (proj2 (range_termination_member t ring_tokens) r Et)
        as [Hr _].
      cbv zeta.
      destruct (partition_exhausts t r start_steps fuel Hs)
        as (pairs & Hp); [apply Hfuel; [apply Hin; apply in_eq | exact Hr] |].
      match goal with
      | |- context [dispatch _ _ _ _ _ _ _ _ _ ?f ?g ?k ?p ?s ?m] =>
          destruct (dispatch_scripted fuel f g pairs k p s m Hp) as (l3 & E & G)
      end; [now apply on_script_log |].
      rewrite E. apply IH; [| exact G].
      intros x Hx. apply Hin. now apply in_cons. }
  destruct (T host_tokens (List.length host_tokens) 0%nat l2 (fun t H => H) S2)
    as (l' & E & G).
  rewrite E. eauto.
Qed.

End Scripted.

Lemma occurrences_member (c : string) (cs : list string) :
  In c cs -> (1 <= occurrences c cs)%nat.
Proof.
  unfold occurrences. induction cs as [| x rest IH]; simpl; [contradiction |].
  intros [-> | Hin].
  - rewrite String.eqb_refl. simpl. lia.
  - destruct (String.eqb x c); simpl; [lia | now apply IH].
Qed.

Section Retried.

Variable world : World.
Variable NODETOOL : option string.
Variable c : string.
Variables (keyspace : string) (columnfamily host : option string).
Variables (repair_concurrency : Z) (all_dcs : bool) (fuel : nat).

Local Abbreviation repair' :=
  (repair world NODETOOL keyspace columnfamily host repair_concurrency all_dcs
          fuel).
Local Abbreviation planned' :=
  (planned NODETOOL keyspace columnfamily host all_dcs fuel).

(** C8. For every command line [c]: (1) an operation whose process fails
    until it has failed [n] times and then succeeds is collected, after
    exactly the missing retries, each a spawn of the same command line, and
    with one success.  (2) In a world where every command line fails a
    number of times of its own ([N], at most [K]) and then succeeds, with
    more fuel than [K], [steps >= 1], both listings accepted and enough
    fuel for the partition, [repair] returns [True]; an operation planned
    with the command line [c] has then failed [N c] times, has been retried
    exactly [N c] times, and has succeeded as many times as it is planned.
    (3) Process by process, in every state of the run of [repair]: a spawn
    makes a process with a new number; the spawn after a [Retrying] message
    runs the command line of the message; a wait is for a process in
    flight; a [Retrying] message follows the failed wait of a process of
    that command line; so no process is waited for twice, and when [repair]
    returns every process spawned has been waited for exactly once, the
    processes of the retries included.  (4) Whenever [repair] returns
    [True], both listings were accepted, every operation planned for every
    owned range succeeded (as many successes of [c] as operations with that
    command line), every failure of [c] was followed by one retry of [c],
    and the spawns of [c] are its planned operations plus its failures.
    (5) Once both listings are accepted [repair] never returns [False]. *)
Theorem executor_retries :
  (forall n h l f,
     fails_n_times world c n -> cmd h = c ->
     (failures c l <= n)%nat -> (n - failures c l < f)%nat ->
     exists l',
       collect_results world f [h] l = (Ret tt, l') /\
       failures c l' = n /\
       (retries c l' + failures c l = retries c l + n)%nat /\
       (spawns c l' + failures c l = spawns c l + n)%nat /\
       successes c l' = S (successes c l)) /\
  (forall N K start_steps ring_tokens er l1 host_token_list eh l2,
     scripted world N -> (forall x, (N x <= K)%nat) -> (K < fuel)%nat ->
     1 <= start_steps ->
     get_ring_tokens world NODETOOL host [] = (Ret (true, ring_tokens, er), l1) ->
     get_host_tokens world NODETOOL host l1
     = (Ret (true, host_token_list, eh), l2) ->
     ring_tokens <> [] ->
     (forall t r, In t host_token_list -> In r ring_tokens ->
        (Z.to_nat (Z.abs (r - t)) + 3 <= fuel)%nat) ->
     exists l',
       repair' start_steps [] = (Ret true, l') /\
       (In c (planned' start_steps ring_tokens host_token_list) ->
        let cmds := ring_cmd NODETOOL host :: info_cmd NODETOOL host
                    :: planned' start_steps ring_tokens host_token_list in
        failures c l' = N c /\ retries c l' = N c /\
        successes c l' = occurrences c cmds /\
        spawns c l' = (occurrences c cmds + N c)%nat)) /\
  (forall start_steps,
     let run := repair' start_steps [] in
     (forall pre post,
        snd run = (post ++ pre)%list ->
        (forall h rest, pre = Spawn h :: rest -> proc h = spawned rest) /\
        (forall h c' rest,
           pre = Spawn h :: Log (Retrying c') :: rest -> cmd h = c') /\
        (forall h rc rest, pre = Wait h rc :: rest -> In h (running rest)) /\
        (forall c' rest,
           pre = Log (Retrying c') :: rest ->
           exists h rc err rest',
             rest = Log (FailedStderr err) :: Log (Failed c') :: Wait h rc :: rest' /\
             cmd h = c' /\ rc <> 0)) /\
     (forall h, (waits h (snd run) <= launches h (snd run) <= 1)%nat) /\
     (forall b, fst run = Ret b ->
                forall h, waits h (snd run) = launches h (snd run))) /\
  (forall start_steps l',
     repair' start_steps [] = (Ret true, l') ->
     exists ring_tokens host_token_list er eh l1 l2,
       get_ring_tokens world NODETOOL host [] = (Ret (true, ring_tokens, er), l1) /\
       get_host_tokens world NODETOOL host l1
       = (Ret (true, host_token_list, eh), l2) /\
       let cmds := ring_cmd NODETOOL host :: info_cmd NODETOOL host
                   :: planned' start_steps ring_tokens host_token_list in
       successes c l' = occurrences c cmds /\
       retries c l' = failures c l' /\
       spawns c l' = (occurrences c cmds + failures c l')%nat) /\
  (forall start_steps l ring_tokens er l1 host_token_list eh l2 l',
     get_ring_tokens world NODETOOL host l = (Ret (true, ring_tokens, er), l1) ->
     get_host_tokens world NODETOOL host l1
     = (Ret (true, host_token_list, eh), l2) ->
     repair' start_steps l <> (Ret false, l')).
Proof.
  assert (L : forall start_steps l',
             repair' start_steps [] = (Ret true, l') ->
             exists ring_tokens host_token_list er eh l1 l2,
               get_ring_tokens world NODETOOL host []
               = (Ret (true, ring_tokens, er), l1) /\
               get_host_tokens world NODETOOL host l1
               = (Ret (true, host_token_list, eh), l2) /\
               let cmds := ring_cmd NODETOOL host :: info_cmd NODETOOL host
                           :: planned' start_steps ring_tokens host_token_list in
               successes c l' = occurrences c cmds /\
               retries c l' = failures c l' /\
               spawns c l' = (occurrences c cmds + failures c l')%nat).
  { intros start_steps l' E.
    apply (repair_ledger world NODETOOL c) in E
      as (rt & ht & er & eh & l1 & l2 & Er & Eh & Hl).
    exists rt, ht, er, eh, l1, l2.
    split; [exact Er |]. split; [exact Eh |]. cbv zeta.
    unfold ledger in Hl. unfold successes, failures, spawns, retries, count in *.
    simpl in Hl. lia. }
  split; [| split; [| split; [| split; [exact L |]]]].
  - intros n h l f Hw Hh Hn Hf.
    destruct (retry_until_success world c n Hw (n - failures c l) f h l Hh)
      as (l' & E & G1 & G2 & G3 & G4); try lia.
    exists l'. split; [exact E |].
    split; [exact G1 |]. split; [lia |]. split; [lia | exact G4].
  - intros N K start_steps rt er l1 ht eh l2 Hw Hb Hf Hs Er Eh Hne Hfuel.
    destruct (repair_scripted world N Hw K Hb NODETOOL keyspace columnfamily
                host repair_concurrency all_dcs fuel Hf start_steps l1 l2 rt ht
                er eh Hs Er Eh Hne Hfuel) as (l' & E & G).
    exists l'. split; [exact E |]. intros Hin. cbv zeta.
    destruct (L start_steps l' E)
      as (rt' & ht' & er' & eh' & l1' & l2' & Er' & Eh' & H1 & H2 & H3).
    rewrite Er in Er'. injection Er' as <- <- <-.
    rewrite Eh in Eh'. injection Eh' as <- <- <-.
    cbv zeta in H1, H3. apply occurrences_member in Hin.
    destruct (G c) as [Ga Gb].
    assert (Ho : (1 <= occurrences c (ring_cmd NODETOOL host :: info_cmd NODETOOL host
                                      :: planned' start_steps rt ht))%nat).
    { change (ring_cmd NODETOOL host :: info_cmd NODETOOL host
              :: planned' start_steps rt ht)
        with ([ring_cmd NODETOOL host; info_cmd NODETOOL host]
              ++ planned' start_steps rt ht)%list.
      rewrite occurrences_app. lia. }
    lia.
  - intros start_steps. cbv zeta.
    destruct (repair_kept world NODETOOL repair_concurrency keyspace columnfamily
                host all_dcs fuel start_steps []
                (kept_nil repair_concurrency) eq_refl) as [H Hend].
    assert (Ho : every_state orderly (snd (repair' start_steps []))).
    { apply (every_state_impl (kept repair_concurrency)); [| exact H].
      intros pre Hp. exact (proj1 Hp). }
    split; [| split].
    + intros pre post E. pose proof (Ho pre post E) as Hp.
      split; [| split; [| split]].
      * intros h rest ->. exact (proj1 Hp).
      * intros h c' rest ->. exact (proj2 Hp).
      * intros h rc rest ->. exact Hp.
      * intros c' rest ->. exact Hp.
    + intros h. destruct (orderly_accounts _ Ho h) as (A & B & _). lia.
    + intros b Hb h. destruct (orderly_accounts _ Ho h) as (A & _).
      unfold in_flight_of in A. rewrite (Hend b Hb) in A. simpl in A. lia.
  - intros start_steps l rt er l1 ht eh l2 l' Er Eh E.
    rewrite repair_unfold, Er, Eh in E.
    destruct (repair_tokens _ _ _ _ _ _ _ _ _ _ _ _ _ _) as [[[] | e |] l3];
      discriminate E.
Qed.

End Retried.

Lemma flaky_scripted : scripted Sample.flaky Sample.flaky_script.
Proof.
  intros c l h Hh. subst c. unfold Sample.flaky, Sample.flaky_script.
  destruct (String.eqb (cmd h) Sample.flaky_cmd) eqn:E.
  - apply String.eqb_eq in E. rewrite E.
    destruct (2 <=? failures Sample.flaky_cmd l)%nat; reflexivity.
  - unfold Sample.calm.
    destruct (String.eqb (cmd h) "nodetool ring"); [reflexivity |].
    destruct (String.eqb (cmd h) "nodetool info -T"); reflexivity.
Defined.

Lemma flaky_script_bounded (c : string) : (Sample.flaky_script c <= 2)%nat.
Proof.
  unfold Sample.flaky_script. destruct (String.eqb c Sample.flaky_cmd); lia.
Defined.

Lemma flaky_cmd_planned :
  In Sample.flaky_cmd (planned None "ks" None None false 13 5 [10; 20; 30] [20]).
Proof. vm_compute. auto. Defined.

Lemma executor_retries_witness :
  (exists l',
     collect_results Sample.flaky 3 [mkCommandResult 0 Sample.flaky_cmd] []
     = (Ret tt, l') /\
     failures Sample.flaky_cmd l' = 2%nat /\
     (retries Sample.flaky_cmd l' + 0 = 0 + 2)%nat /\
     (spawns Sample.flaky_cmd l' + 0 = 0 + 2)%nat /\
     successes Sample.flaky_cmd l' = 1%nat) /\
  (exists l',
     repair Sample.flaky None "ks" None None 2 false 13 5 [] = (Ret true, l') /\
     failures Sample.flaky_cmd l' = 2%nat /\
     retries Sample.flaky_cmd l' = 2%nat /\
     successes Sample.flaky_cmd l' = 1%nat /\
     spawns Sample.flaky_cmd l' = 3%nat).
Proof.
  destruct (executor_retries Sample.flaky None Sample.flaky_cmd "ks" None None
              2 false 13) as (A & B & _).
  split.
  - apply (A 2%nat (mkCommandResult 0 Sample.flaky_cmd) [] 3%nat
             flaky_fails_twice eq_refl);
      [apply Nat.leb_le | apply Nat.ltb_lt]; reflexivity.
  - destruct (B Sample.flaky_script 2%nat 5 [10; 20; 30] None
                [Log RingTokensFound; Wait (mkCommandResult 0 "nodetool ring") 0;
                 Spawn (mkCommandResult 0 "nodetool ring"); Log RunningRing]
                [20] None
                [Log HostTokensFound; Wait (mkCommandResult 1 "nodetool info -T") 0;
                 Spawn (mkCommandResult 1 "nodetool info -T");
                 Log RingTokensFound; Wait (mkCommandResult 0 "nodetool ring") 0;
                 Spawn (mkCommandResult 0 "nodetool ring"); Log RunningRing]
                flaky_scripted flaky_script_bounded)
      as (l' & E & G);
      [apply Nat.ltb_lt; reflexivity | lia | reflexivity | reflexivity
      | discriminate | |].
    + intros t r [<- | []] [<- | [<- | [<- | []]]]; apply Nat.leb_le; reflexivity.
    + exists l'. split; [exact E |]. exact (G flaky_cmd_planned).
Defined.
